(** * bluesky-later: the scheduled-post store, its HTTP API and the cron run loop

    A shallow embedding of

    - [src/lib/db/types.ts]   (the [Post] and [Credentials] shapes),
    - [api/index.ts]          (the Express server: tables, routes, the
                               [/api/cron/check-posts] run loop),
    - [src/lib/db/remote.ts]  (the [RemoteDB] client of that server),
    - [src/lib/bluesky.ts]    (the payload builder [getPostData], from its
                               description),

    followed by the properties of the delivery pipeline.

    Modelling conventions.

    - An instant ([Date], [TIMESTAMP WITH TIME ZONE]) is a [Z], the number of
      milliseconds since the epoch.  [NOW()] is an argument of the handlers.
    - A table is the list of its rows, in the order in which a [SELECT]
      lists them.  SQL leaves the place of a row after an [UPDATE] open;
      the model keeps the row where it stands, and no property below
      depends on where an updated row is listed.  [SERIAL] columns draw
      from a sequence kept next to the table.
    - [pool.query] is taken to succeed on well-typed arguments; the social
      network ([agent.login], [agent.post]) and the transport used by
      [fetch] may fail, and their outcomes are arguments of the model.
    - A handler, as a function, runs from its first statement to its
      response.  Express lets another handler run at every [await]; an
      overlap of two cron handlers is modelled apart
      ([overlapping_cron_runs]), and [serially_reachable] is the
      reachability of a server that takes one request at a time.
    - A request is modelled after the body parser let it through and for
      values the columns can hold: [ordinary_draft], [int4] and
      [four_digit_year] name those bounds where a property needs them.
    - Every call that leaves the process is recorded, with its outcome, in
      a trace. *)

From Stdlib Require Import List String ZArith Lia Bool Permutation.
Import ListNotations.
Open Scope string_scope.
Open Scope Z_scope.

Set Implicit Arguments.

(* ================================================================== *)
(** * JavaScript: thrown values, asynchronous code with try/catch       *)
(* ================================================================== *)

Module Js.

(** What a [catch (error: unknown)] clause can receive. *)
Inductive Thrown : Type :=
| ErrorObj (message : string)   (* error instanceof Error *)
| NonError.                     (* any other thrown value  *)

(** [`${v}`] for a value that is a string or [undefined]. *)
Definition template (v : option string) : string :=
  match v with
  | Some s => s
  | None => "undefined"
  end.

(** [a !== b] where [a] may be [undefined] and [b] is a string. *)
Definition strict_neq (a : option string) (b : string) : bool :=
  match a with
  | Some s => negb (String.eqb s b)
  | None => true
  end.

(** The message of the [TypeError] raised by reading property [prop] of
    [undefined] (V8's wording). *)
Definition undefined_property_message (prop : string) : string :=
  "Cannot read properties of undefined (reading '" ++ prop ++ "')".

(** The message of the [SyntaxError] raised by [response.json()] on an
    empty body. *)
Definition empty_json_message : string := "Unexpected end of JSON input".

Section Async.
(** Code that threads a state [S] and either returns or throws.  A
    throw keeps the effects performed so far. *)
Variable S : Type.

Definition Async (A : Type) : Type := S -> (Thrown + A) * S.

Definition ret {A} (a : A) : Async A := fun s => (inr a, s).

Definition throw {A} (e : Thrown) : Async A := fun s => (inl e, s).

Definition bind {A B} (m : Async A) (k : A -> Async B) : Async B :=
  fun s =>
    match m s with
    | (inr a, s') => k a s'
    | (inl e, s') => (inl e, s')
    end.

(** [try { body } catch (error) { handler(error) }] *)
Definition try_catch {A} (body : Async A) (handler : Thrown -> Async A)
  : Async A :=
  fun s =>
    match body s with
    | (inr a, s') => (inr a, s')
    | (inl e, s') => handler e s'
    end.

(** [for (const x of xs) { body(x) }] *)
Fixpoint for_of {A} (xs : list A) (body : A -> Async unit) : Async unit :=
  match xs with
  | [] => ret tt
  | x :: rest => bind (body x) (fun _ => for_of rest body)
  end.
End Async.

Arguments ret {S A} a.
Arguments throw {S A} e.
Arguments bind {S A B} m k.
Arguments try_catch {S A} body handler.
Arguments for_of {S A} xs body.

End Js.

Import Js.

Declare Scope async_scope.
Delimit Scope async_scope with async.
Notation "x <- m ;; k" := (bind m (fun x => k))
  (at level 61, m at next level, right associativity) : async_scope.
Notation "m ;;; k" := (bind m (fun _ => k))
  (at level 61, right associativity) : async_scope.
Open Scope async_scope.

(* ================================================================== *)
(** * src/lib/db/types.ts                                               *)
(* ================================================================== *)

Module Types.

Inductive Status : Type := Pending | Published | Failed.

Definition Status_eqb (a b : Status) : bool :=
  match a, b with
  | Pending, Pending | Published, Published | Failed, Failed => true
  | _, _ => false
  end.

Record BlobRef : Type := {
  blob_type : string;      (* $type *)
  blob_link : string;      (* ref.$link *)
  mimeType : string;
  size : Z
}.

Record Image : Type := {
  image_url : string;      (* url *)
  image_type : string;     (* type *)
  alt : option string;
  blobRef : option BlobRef
}.

(** [Omit<Post, "id" | "createdAt">], the argument of [createPost]. *)
Record Draft : Type := {
  content : string;
  scheduledFor : Z;
  status : Status;
  error : option string;
  url : option string;
  image : option Image
}.

(** [Partial<Post>], the argument of [updatePost]. *)
Record PartialPost : Type := {
  p_content : option string;
  p_scheduledFor : option Z;
  p_status : option Status;
  p_error : option string;
  p_url : option string;
  p_image : option Image
}.

(** [Omit<Credentials, "id">] *)
Record Creds : Type := {
  identifier : string;
  password : string
}.

End Types.

(* ================================================================== *)
(** * api/index.ts: tables                                              *)
(* ================================================================== *)

Module Schema.

Import Types.

(** A row of [posts]. *)
Record PostRow : Type := {
  id : Z;                      (* SERIAL PRIMARY KEY *)
  content : string;            (* TEXT NOT NULL *)
  scheduled_for : Z;           (* TIMESTAMP WITH TIME ZONE NOT NULL *)
  status : Status;             (* TEXT NOT NULL *)
  error : option string;       (* TEXT *)
  created_at : Z;              (* TIMESTAMP WITH TIME ZONE DEFAULT NOW() *)
  url : option string;         (* TEXT *)
  image : option Image         (* JSONB *)
}.

(** A row of [credentials]. *)
Record CredentialsRow : Type := {
  cred_id : Z;                 (* SERIAL PRIMARY KEY *)
  identifier : string;         (* TEXT NOT NULL *)
  password : string            (* TEXT NOT NULL *)
}.

Record Database : Type := {
  posts : list PostRow;
  posts_id_seq : Z;
  credentials : list CredentialsRow;
  credentials_id_seq : Z
}.

(** [initDB] on a fresh database: both tables empty, sequences at 1. *)
Definition initDB : Database :=
  {| posts := []; posts_id_seq := 1;
     credentials := []; credentials_id_seq := 1 |}.

Definition with_posts (rows : list PostRow) (d : Database) : Database :=
  {| posts := rows; posts_id_seq := posts_id_seq d;
     credentials := credentials d;
     credentials_id_seq := credentials_id_seq d |}.

Definition with_credentials (rows : list CredentialsRow) (d : Database)
  : Database :=
  {| posts := posts d; posts_id_seq := posts_id_seq d;
     credentials := rows;
     credentials_id_seq := credentials_id_seq d |}.

Definition set_status (s : Status) (r : PostRow) : PostRow :=
  {| id := id r; content := content r; scheduled_for := scheduled_for r;
     status := s; error := error r; created_at := created_at r;
     url := url r; image := image r |}.

Definition set_status_error (s : Status) (e : string) (r : PostRow)
  : PostRow :=
  {| id := id r; content := content r; scheduled_for := scheduled_for r;
     status := s; error := Some e; created_at := created_at r;
     url := url r; image := image r |}.

(** The statements the server sends to [pool.query]. *)
Inductive Sql : Type :=
| SelectDuePosts
    (* SELECT * FROM posts WHERE status = 'pending' AND scheduled_for <= NOW() *)
| SelectAllPosts
    (* SELECT * FROM posts *)
| InsertPost
    (* INSERT INTO posts (content, scheduled_for, status, image) ... RETURNING * *)
| DeletePost (post_id : Z)
    (* DELETE FROM posts WHERE id = $1 *)
| SelectCredentials
    (* SELECT * FROM credentials LIMIT 1 *)
| UpdateStatus (s : Status) (post_id : Z)
    (* UPDATE posts SET status = $1 WHERE id = $2 *)
| UpdateStatusError (s : Status) (e : string) (post_id : Z)
    (* UPDATE posts SET status = $1, error = $2 WHERE id = $3 *)
| DeleteCredentials
    (* DELETE FROM credentials *)
| InsertCredentials (ident pass : string).
    (* INSERT INTO credentials (identifier, password) VALUES ($1, $2) *)

Definition is_due (now : Z) (r : PostRow) : bool :=
  Status_eqb (status r) Pending && (scheduled_for r <=? now).

Definition select_due_posts (now : Z) (d : Database) : list PostRow :=
  filter (is_due now) (posts d).

Definition insert_post (now : Z) (c : string) (sched : Z)
           (s : Status) (img : option Image) (d : Database)
  : PostRow * Database :=
  let row := {| id := posts_id_seq d; content := c; scheduled_for := sched;
                status := s; error := None; created_at := now;
                url := None; image := img |} in
  (row, {| posts := posts d ++ [row]; posts_id_seq := posts_id_seq d + 1;
           credentials := credentials d;
           credentials_id_seq := credentials_id_seq d |}).

Definition delete_post (post_id : Z) (d : Database) : Database :=
  with_posts (filter (fun r => negb (id r =? post_id)) (posts d)) d.

(** The row is rewritten where it stands; where a later [SELECT] lists it
    is left open by SQL and nothing relies on it. *)
Definition update_status (s : Status) (post_id : Z) (d : Database)
  : Database :=
  with_posts
    (map (fun r => if id r =? post_id then set_status s r else r) (posts d))
    d.

Definition update_status_error (s : Status) (e : string) (post_id : Z)
           (d : Database) : Database :=
  with_posts
    (map (fun r => if id r =? post_id then set_status_error s e r else r)
         (posts d))
    d.

Definition select_credentials_limit_1 (d : Database)
  : list CredentialsRow :=
  firstn 1 (credentials d).

Definition delete_credentials (d : Database) : Database :=
  with_credentials [] d.

Definition insert_credentials (ident pass : string) (d : Database)
  : Database :=
  {| posts := posts d; posts_id_seq := posts_id_seq d;
     credentials :=
       credentials d ++
       [{| cred_id := credentials_id_seq d;
           identifier := ident; password := pass |}];
     credentials_id_seq := credentials_id_seq d + 1 |}.

(** The primary key of [posts]: no two rows share an id, and the sequence
    is ahead of every id in the table. *)
Definition posts_pkey (d : Database) : Prop :=
  NoDup (map id (posts d)).

Definition seq_ahead (d : Database) : Prop :=
  Forall (fun r => id r < posts_id_seq d) (posts d).

Definition lookup_post (post_id : Z) (d : Database) : option PostRow :=
  find (fun r => id r =? post_id) (posts d).

End Schema.

(* ================================================================== *)
(** * api/index.ts: routes                                              *)
(* ================================================================== *)

Module Api.

Import Types.
Import Schema.

(** Calls that leave the process.  [for_post] is the id of the post whose
    loop iteration issues the call; [outcome] is [None] when the promise
    resolves and [Some e] when it rejects with [e]. *)
Inductive Event : Type :=
| Query (q : Sql)
| AgentLogin (for_post : Z) (ident pass : string) (outcome : option Thrown)
| AgentPost (for_post : Z) (text : string) (outcome : option Thrown).

(** The social network, as seen through [BskyAgent]: the outcome of a call
    may depend on everything that happened before it. *)
Record World : Type := {
  login_outcome : list Event -> string -> string -> option Thrown;
  post_outcome : list Event -> string -> option Thrown
}.

(** [process.env] *)
Record Env : Type := {
  CRON_SECRET : option string
}.

Record State : Type := {
  db : Database;
  trace : list Event
}.

Definition Handler (A : Type) : Type := Async State A.

Definition log (e : Event) (st : State) : State :=
  {| db := db st; trace := trace st ++ [e] |}.

(** [pool.query(q)]: record the statement, run it on the tables. *)
Definition query {A} (q : Sql) (run : Database -> A * Database)
  : Handler A :=
  fun st =>
    let (rows, d') := run (db st) in
    (inr rows, {| db := d'; trace := trace st ++ [Query q] |}).

Definition agent_login (w : World) (for_post : Z) (ident pass : string)
  : Handler unit :=
  fun st =>
    let o := login_outcome w (trace st) ident pass in
    (match o with None => inr tt | Some e => inl e end,
     log (AgentLogin for_post ident pass o) st).

Definition agent_post (w : World) (for_post : Z) (text : string)
  : Handler unit :=
  fun st =>
    let o := post_outcome w (trace st) text in
    (match o with None => inr tt | Some e => inl e end,
     log (AgentPost for_post text o) st).

(** [creds.identifier], [creds.password] where [creds] is the first
    element of [rows], [undefined] when there is none. *)
Definition get_identifier (creds : option CredentialsRow)
  : Handler string :=
  match creds with
  | Some c => ret (identifier c)
  | None => throw (ErrorObj (undefined_property_message "identifier"))
  end.

Definition get_password (creds : option CredentialsRow) : Handler string :=
  match creds with
  | Some c => ret (password c)
  | None => throw (ErrorObj (undefined_property_message "password"))
  end.

(** What [res.json] is given. *)
Inductive Body : Type :=
| JsonUndefined                           (* res.json(undefined) *)
| JsonPosts (rows : list PostRow)
| JsonPost (row : PostRow)
| JsonCredentials (row : CredentialsRow)
| JsonSuccess                             (* { success: true } *)
| JsonError (message : string)            (* { error: message } *)
| HtmlNotFound.                           (* Express's default 404 page *)

Record Response : Type := {
  status_code : Z;
  body : Body
}.

Definition res_json (b : Body) : Response :=
  {| status_code := 200; body := b |}.

Definition res_status_json (code : Z) (b : Body) : Response :=
  {| status_code := code; body := b |}.

(** ** [GET /api/posts/pending] *)
Definition get_posts_pending (now : Z) : Handler Response :=
  rows <- query SelectDuePosts (fun d => (select_due_posts now d, d)) ;;
  ret (res_json (JsonPosts rows)).

(** ** [GET /api/posts] *)
Definition get_posts : Handler Response :=
  rows <- query SelectAllPosts (fun d => (posts d, d)) ;;
  ret (res_json (JsonPosts rows)).

(** ** [POST /api/posts]
    [const { content, scheduledFor, image } = req.body]: the other
    members of the body are not read.  The handler is reached by a body
    within the parser's limit, and the INSERT is taken by the table for
    values its columns can hold ([ordinary_draft], and a sequence within
    [int4]); outside them the query is rejected and the handler has no
    [catch]. *)
Definition post_posts (now : Z) (req_body : Draft) : Handler Response :=
  let content := Types.content req_body in
  let scheduledFor := Types.scheduledFor req_body in
  let image := Types.image req_body in
  row <- query InsertPost
           (insert_post now content scheduledFor Pending image) ;;
  ret (res_json (JsonPost row)).

(** ** [DELETE /api/posts/:id]
    For an id the INTEGER column can hold ([int4]); outside it the query
    is rejected and the handler has no [catch]. *)
Definition delete_posts_id (post_id : Z) : Handler Response :=
  query (DeletePost post_id) (fun d => (tt, delete_post post_id d)) ;;;
  ret (res_json JsonSuccess).

(** ** [POST /api/cron/check-posts] *)

(** The [try] block of the loop body. *)
Definition try_block (w : World) (post : PostRow) : Handler unit :=
  rows <- query SelectCredentials
            (fun d => (select_credentials_limit_1 d, d)) ;;
  let creds := hd_error rows in
  ident <- get_identifier creds ;;
  pass <- get_password creds ;;
  agent_login w (id post) ident pass ;;;
  agent_post w (id post) (content post) ;;;
  query (UpdateStatus Published (id post))
        (fun d => (tt, update_status Published (id post) d)).

Definition errorMessage (error : Thrown) : string :=
  match error with
  | ErrorObj message => message
  | NonError => "Unknown error"
  end.

(** The [catch] block of the loop body. *)
Definition catch_block (post : PostRow) (error : Thrown) : Handler unit :=
  query (UpdateStatusError Failed (errorMessage error) (id post))
        (fun d =>
           (tt, update_status_error Failed (errorMessage error) (id post) d)).

Definition loop_body (w : World) (post : PostRow) : Handler unit :=
  try_catch (try_block w post) (catch_block post).

Definition post_cron_check_posts (env : Env) (w : World) (now : Z)
           (authHeader : option string) : Handler Response :=
  if strict_neq authHeader ("Bearer " ++ template (CRON_SECRET env)) then
    ret (res_status_json 401 (JsonError "Unauthorized"))
  else
    posts <- query SelectDuePosts (fun d => (select_due_posts now d, d)) ;;
    for_of posts (loop_body w) ;;;
    ret (res_json JsonSuccess).

(** ** [GET /api/credentials] *)
Definition get_credentials : Handler Response :=
  rows <- query SelectCredentials
            (fun d => (select_credentials_limit_1 d, d)) ;;
  ret (res_json (match hd_error rows with
                 | Some row => JsonCredentials row
                 | None => JsonUndefined
                 end)).

(** ** [POST /api/credentials] *)
Definition post_credentials (req_body : Creds) : Handler Response :=
  let identifier := Types.identifier req_body in
  let password := Types.password req_body in
  query DeleteCredentials (fun d => (tt, delete_credentials d)) ;;;
  query (InsertCredentials identifier password)
        (fun d => (tt, insert_credentials identifier password d)) ;;;
  ret (res_json JsonSuccess).

(** ** [DELETE /api/credentials] *)
Definition delete_credentials_route : Handler Response :=
  query DeleteCredentials (fun d => (tt, delete_credentials d)) ;;;
  ret (res_json JsonSuccess).

(** ** The application: requests and their dispatch *)
Inductive Request : Type :=
| GET_posts_pending
| GET_posts
| POST_posts (req_body : Draft)
| DELETE_posts_id (post_id : Z)
| PATCH_posts_id (post_id : Z) (req_body : PartialPost)
| POST_cron_check_posts (authorization : option string)
| GET_credentials
| POST_credentials (req_body : Creds)
| DELETE_credentials.

(** No route is registered for [PATCH]: Express answers 404 without
    running any handler. *)
Definition app (env : Env) (w : World) (now : Z) (req : Request)
  : Handler Response :=
  match req with
  | GET_posts_pending => get_posts_pending now
  | GET_posts => get_posts
  | POST_posts b => post_posts now b
  | DELETE_posts_id i => delete_posts_id i
  | PATCH_posts_id _ _ => ret (res_status_json 404 HtmlNotFound)
  | POST_cron_check_posts a => post_cron_check_posts env w now a
  | GET_credentials => get_credentials
  | POST_credentials b => post_credentials b
  | DELETE_credentials => delete_credentials_route
  end.

(** Store states of a server that takes one request at a time: [initDB],
    then any sequence of requests, each handled to its response before the
    next one starts, at any times, against any behaviour of the network.
    Store states that need two handlers to overlap are not in it. *)
Inductive serially_reachable : Database -> Prop :=
| serial_init : serially_reachable initDB
| serial_step env w now req d tr :
    serially_reachable d ->
    serially_reachable
      (db (snd (app env w now req {| db := d; trace := tr |}))).

(** ** Reading a trace *)

Definition is_publish_for (post_id : Z) (e : Event) : bool :=
  match e with
  | AgentPost p _ _ => p =? post_id
  | _ => false
  end.

Definition is_login (e : Event) : bool :=
  match e with
  | AgentLogin _ _ _ _ => true
  | _ => false
  end.

Definition is_publish (e : Event) : bool :=
  match e with
  | AgentPost _ _ _ => true
  | _ => false
  end.

Definition is_write_to (post_id : Z) (e : Event) : bool :=
  match e with
  | Query (DeletePost p) => p =? post_id
  | Query (UpdateStatus _ p) => p =? post_id
  | Query (UpdateStatusError _ _ p) => p =? post_id
  | _ => false
  end.

Definition is_query (e : Event) : bool :=
  match e with
  | Query _ => true
  | _ => false
  end.

Definition count (f : Event -> bool) (tr : list Event) : nat :=
  List.length (filter f tr).

End Api.

(* ================================================================== *)
(** * src/lib/db/remote.ts                                              *)
(* ================================================================== *)

Module RemoteDB.

Import Types.
Import Schema.
Import Api.

(** The [Response] of the Fetch API, as far as [fetchApi] reads it. *)
Record FetchResponse : Type := {
  ok : bool;
  statusText : string;
  json : Thrown + Body          (* what [response.json()] settles to *)
}.

(** What [fetch] settles to. *)
Inductive FetchOutcome : Type :=
| Rejects (e : Thrown)
| Resolves (response : FetchResponse).

(** How a response of the server reads on the client.  An empty body and
    an HTML page are not JSON documents. *)
Definition reason_phrase (code : Z) : string :=
  if code =? 200 then "OK"
  else if code =? 401 then "Unauthorized"
  else if code =? 404 then "Not Found"
  else EmptyString.

Definition dquote : string := String (Ascii.ascii_of_nat 34) EmptyString.

Definition parse_body (b : Body) : Thrown + Body :=
  match b with
  | JsonUndefined => inl (ErrorObj empty_json_message)
  | HtmlNotFound =>
      inl (ErrorObj ("Unexpected token '<', " ++ dquote ++ "<!DOCTYPE "
                     ++ dquote ++ "... is not valid JSON"))
  | _ => inr b
  end.

Definition over_http (r : Response) : FetchResponse :=
  {| ok := (200 <=? status_code r) && (status_code r <=? 299);
     statusText := reason_phrase (status_code r);
     json := parse_body (body r) |}.

(** A transport that reaches the server.  A handler that throws sends no
    response, and the request fails on the client. *)
Definition online (env : Env) (w : World) (now : Z) (req : Request)
  : State -> FetchOutcome * State :=
  fun st =>
    match app env w now req st with
    | (inr r, st') => (Resolves (over_http r), st')
    | (inl e, st') => (Rejects e, st')
    end.

Section Client.

(** The transport: [fetch] in this file, [makeAuthenticatedRequest] in its
    later revision.  It takes the request to the server, or fails to. *)
Variable fetch : Request -> State -> FetchOutcome * State.

Definition fetchApi (req : Request) : Async State Body :=
  fun st =>
    let (o, st') := fetch req st in
    match o with
    | Rejects e => (inl e, st')
    | Resolves response =>
        if negb (ok response) then
          (inl (ErrorObj ("API Error: " ++ statusText response)), st')
        else
          (json response, st')
    end.

Definition getPendingPosts : Async State Body :=
  fetchApi GET_posts_pending.

Definition getAllPosts : Async State Body :=
  fetchApi GET_posts.

Definition createPost (post : Draft) : Async State Body :=
  fetchApi (POST_posts post).


Definition deletePost (id : Z) : Async State unit :=
  fetchApi (DELETE_posts_id id) ;;; ret tt.

(** [Credentials | null]: [None] is [null]. *)
Definition getCredentials : Async State (option Body) :=
  try_catch
    (b <- fetchApi GET_credentials ;; ret (Some b))
    (fun error => ret None).



End Client.

End RemoteDB.

(* ================================================================== *)
(** * src/lib/bluesky.ts: the payload builder                           *)
(* ================================================================== *)

Module Bluesky.

Import Types.

(** The link card returned by the metadata resolver. *)
Record External : Type := {
  uri : string;
  title : string;
  description : string;
  thumb : option BlobRef;
  localImageRef : option Z
}.

Record EmbedImage : Type := {
  embed_alt : string;            (* alt *)
  embed_image : option BlobRef   (* image *)
}.

Inductive Embed : Type :=
| EmbedExternal (external : External)       (* app.bsky.embed.external *)
| EmbedImages (images : list EmbedImage).   (* app.bsky.embed.images *)

(** The argument of [getPostData]. *)
Record PostDraft : Type := {
  content : string;
  url : option string;
  image : option Image;
  scheduledAt : Z
}.

Section PayloadBuilder.

(** Rich-text segmentation, the ISO-8601 encoding of an instant and the
    metadata resolver belong to collaborators of the builder. *)
Variable Facet : Type.
Variable detectFacets : string -> list Facet.
Variable toISOString : Z -> string.
Variable fetchUrlMetadata : string -> Creds -> Thrown + External.

Record PlatformPost : Type := {
  text : string;
  facets : list Facet;
  createdAt : string;
  embed : option Embed
}.

(** Modelled from the spec: [getPostData] of [src/lib/bluesky.ts], of
    which only the tests are at hand.  It fails with "No credentials
    set" before anything else when there are no credentials; facets are
    always computed; a [url] gives a link card built from the resolver's
    answer (or from the url alone when the resolver fails) and the image
    is then not looked at; otherwise an [image] gives an image embed
    whose [alt] defaults to the empty string; otherwise there is no
    embed; [createdAt] encodes [scheduledAt]. *)
Definition getPostData (creds : option Creds) (d : PostDraft)
  : Thrown + PlatformPost :=
  match creds with
  | None => inl (ErrorObj "No credentials set")
  | Some c =>
      let e :=
        match url d with
        | Some u =>
            Some (EmbedExternal
                    (match fetchUrlMetadata u c with
                     | inr m => m
                     | inl _ =>
                         {| uri := u; title := u; description := EmptyString;
                            thumb := None; localImageRef := None |}
                     end))
        | None =>
            match image d with
            | Some i =>
                Some (EmbedImages
                        [{| embed_alt := match alt i with
                                         | Some a => a
                                         | None => EmptyString
                                         end;
                            embed_image := blobRef i |}])
            | None => None
            end
        end in
      inr {| text := content d;
             facets := detectFacets (content d);
             createdAt := toISOString (scheduledAt d);
             embed := e |}
  end.

Definition has_link_embed (p : PlatformPost) : Prop :=
  exists external, embed p = Some (EmbedExternal external).

Definition has_image_embed (p : PlatformPost) : Prop :=
  exists images, embed p = Some (EmbedImages images).

End PayloadBuilder.

End Bluesky.

(* ================================================================== *)
(** * src/lib/bluesky.ts: the browser-side run loop                     *)
(* ================================================================== *)

Module Scheduler.

Import Types.
Import Schema.
Import Api.

(** Modelled from the spec: [getPostsToSend] of the store behind [db()]
    ([LocalDB] is not at hand); it returns the posts that are pending and
    due. *)
Definition getPostsToSend (now : Z) : Handler (list PostRow) :=
  fun st => (inr (select_due_posts now (db st)), st).

(** Modelled from the spec: [getCredentials] of the store behind [db()];
    it returns the credential record, or [null] when there is none. *)
Definition getCredentials : Handler (option CredentialsRow) :=
  fun st => (inr (hd_error (credentials (db st))), st).

(** Modelled from the spec: [updatePost(id, { status: 'published' })] of the
    store behind [db()]; it writes the status to the post with that id. *)
Definition updatePost_published (post_id : Z) : Handler unit :=
  fun st =>
    (inr tt,
     {| db := update_status Published post_id (db st); trace := trace st |}).

(** Modelled from the spec: [updatePost(id, { status: 'failed', error })]
    of the store behind [db()]; it writes both fields to the post with that
    id. *)
Definition updatePost_failed (message : string) (post_id : Z)
  : Handler unit :=
  fun st =>
    (inr tt,
     {| db := update_status_error Failed message post_id (db st);
        trace := trace st |}).

(** Modelled from the spec: the post creation step of
    [checkScheduledPosts]; [agent.post] is called and its outcome recorded,
    but a rejection does not leave the step. *)
Definition publish (w : World) (post_id : Z) (text : string)
  : Handler unit :=
  fun st =>
    (inr tt,
     log (AgentPost post_id text (post_outcome w (trace st) text)) st).

(** Modelled from the spec: [checkScheduledPosts] of [src/lib/bluesky.ts],
    of which only the tests are at hand.  Nothing is done, and nobody logs
    in, when no post is due or when there are no credentials.  Otherwise
    each due post is taken in turn: log in, create the post, write
    [status: published]; the write of [published] follows the post creation
    whatever its outcome (the test "should handle post creation error"
    expects [updatePost(1, { status: 'published' })] after [agent.post]
    rejects); an error of the steps before it is caught for that post and
    written as [status: failed] with its message. *)
Definition checkScheduledPosts (w : World) (now : Z) : Handler unit :=
  posts <- getPostsToSend now ;;
  match posts with
  | [] => ret tt
  | _ :: _ =>
      creds <- getCredentials ;;
      match creds with
      | None => ret tt
      | Some c =>
          for_of posts
            (fun post =>
               try_catch
                 (agent_login w (id post) (identifier c) (password c) ;;;
                  publish w (id post) (content post) ;;;
                  updatePost_published (id post))
                 (fun error =>
                    updatePost_failed (errorMessage error) (id post)))
      end
  end.

End Scheduler.

(* ================================================================== *)
(** * Vocabulary for the run loop                                       *)
(* ================================================================== *)

Module Run.

Import Types.
Import Schema.
Import Api.

(** The events a handler added to the trace. *)
Definition new_events (before after : State) : list Event :=
  skipn (List.length (trace before)) (trace after).

(** The bearer header that the cron route accepts. *)
Definition bearer (env : Env) : string :=
  "Bearer " ++ template (CRON_SECRET env).

(** The state in which the loop starts: the due posts have been read. *)
Definition selected (st : State) : State :=
  log (Query SelectDuePosts) st.

(** The state after the loop went through [batch]. *)
Definition after_loop (w : World) (batch : list PostRow) (st : State)
  : State :=
  snd (for_of batch (loop_body w) st).

(** The state after one iteration. *)
Definition after_iteration (w : World) (post : PostRow) (st : State)
  : State :=
  snd (loop_body w post st).

(** What the [try] block of an iteration ends with: [None] when it
    completes, [Some e] when it throws [e]. *)
Definition verdict (w : World) (post : PostRow) (st : State)
  : option Thrown :=
  match fst (try_block w post st) with
  | inr _ => None
  | inl e => Some e
  end.

(** The row an iteration leaves behind. *)
Definition settled_row (v : option Thrown) (r : PostRow) : PostRow :=
  match v with
  | None => set_status Published r
  | Some e => set_status_error Failed (errorMessage e) r
  end.

Definition settle (v : option Thrown) (post_id : Z) (d : Database)
  : Database :=
  match v with
  | None => update_status Published post_id d
  | Some e => update_status_error Failed (errorMessage e) post_id d
  end.

Definition settle_sql (v : option Thrown) (post_id : Z) : Sql :=
  match v with
  | None => UpdateStatus Published post_id
  | Some e => UpdateStatusError Failed (errorMessage e) post_id
  end.

(** The calls of the [try] block before its [UPDATE]. *)
Definition attempt (w : World) (creds : list CredentialsRow)
           (post : PostRow) (history : list Event) : list Event :=
  match creds with
  | [] => [Query SelectCredentials]
  | c :: _ =>
      let h1 := (history ++ [Query SelectCredentials])%list in
      let l := login_outcome w h1 (identifier c) (password c) in
      let login := AgentLogin (id post) (identifier c) (password c) l in
      match l with
      | Some _ => [Query SelectCredentials; login]
      | None =>
          [Query SelectCredentials; login;
           AgentPost (id post) (content post)
                     (post_outcome w (h1 ++ [login])%list (content post))]
      end
  end.

(** The credentials are accepted whenever they are presented. *)
Definition accepted (w : World) (c : CredentialsRow) : Prop :=
  forall history,
    login_outcome w history (identifier c) (password c) = None.

(** The credentials are refused whenever they are presented. *)
Definition refused (w : World) (c : CredentialsRow) : Prop :=
  forall history,
    login_outcome w history (identifier c) (password c) <> None.

(** No post record differs between two states. *)
Definition no_post_modified (before after : State) : Prop :=
  forall p, In p (posts (db before)) ->
            lookup_post (id p) (db after) = Some p.

(** The status changes a post may go through. *)
Definition legal_transition (before after : Status) : Prop :=
  after = before \/
  (before = Pending /\ (after = Published \/ after = Failed)).

Definition due (now : Z) (r : PostRow) : Prop :=
  status r = Pending /\ scheduled_for r <= now.

Definition not_due (now : Z) (r : PostRow) : Prop :=
  status r = Published \/ status r = Failed \/ now < scheduled_for r.

End Run.

(* ================================================================== *)
(** * Sample data                                                       *)
(* ================================================================== *)

Module Sample.

Import Types.
Import Schema.
Import Api.

Definition env : Env := {| CRON_SECRET := Some "s3cret" |}.

Definition now : Z := 1000.

(** Pending and due. *)
Definition hello : PostRow :=
  {| id := 1; content := "hello"; scheduled_for := 999;
     status := Pending; error := None; created_at := 500;
     url := None; image := None |}.

(** Pending, scheduled in the future. *)
Definition later : PostRow :=
  {| id := 2; content := "see you"; scheduled_for := 2000;
     status := Pending; error := None; created_at := 510;
     url := None; image := None |}.

(** Already published. *)
Definition sent : PostRow :=
  {| id := 3; content := "old news"; scheduled_for := 900;
     status := Published; error := None; created_at := 520;
     url := None; image := None |}.

(** Pending and due, selected after [hello]. *)
Definition second : PostRow :=
  {| id := 4; content := "world"; scheduled_for := 990;
     status := Pending; error := None; created_at := 530;
     url := None; image := None |}.

Definition account : CredentialsRow :=
  {| cred_id := 1; identifier := "alice.bsky.social";
     password := "app-password" |}.

Definition store : Database :=
  {| posts := [hello; later; sent; second]; posts_id_seq := 5;
     credentials := [account]; credentials_id_seq := 2 |}.

(** A due post and no credentials. *)
Definition store_without_credentials : Database :=
  {| posts := [hello]; posts_id_seq := 2;
     credentials := []; credentials_id_seq := 1 |}.

Definition start (d : Database) : State := {| db := d; trace := [] |}.

(** A network that accepts everything. *)
Definition friendly : World :=
  {| login_outcome := fun _ _ _ => None;
     post_outcome := fun _ _ => None |}.

(** A network that refuses every login. *)
Definition rejecting : World :=
  {| login_outcome :=
       fun _ _ _ => Some (ErrorObj "Invalid identifier or password");
     post_outcome := fun _ _ => None |}.

(** A network whose first post creation fails. *)
Definition flaky : World :=
  {| login_outcome := fun _ _ _ => None;
     post_outcome :=
       fun history _ =>
         if existsb is_publish history then None
         else Some (ErrorObj "Post failed") |}.

Definition draft_with_link : Draft :=
  {| Types.content := "check this"; Types.scheduledFor := 2000;
     Types.status := Pending; Types.error := None;
     Types.url := Some "https://x.test"; Types.image := None |}.

(** The store after one [POST /api/posts] on fresh tables. *)
Definition one_post : Database :=
  db (snd (app env friendly 500 (POST_posts draft_with_link)
             (start initDB))).

Definition login : Creds :=
  {| Types.identifier := "test@example.com";
     Types.password := "password" |}.

(** That store once the credentials are set. *)
Definition one_post_and_account : Database :=
  db (snd (app env friendly 600 (POST_credentials login) (start one_post))).

(** That store after a cron run in which the post was published. *)
Definition published_store : Database :=
  db (snd (app env friendly 3000
             (POST_cron_check_posts (Some "Bearer s3cret"))
             (start one_post_and_account))).

(** The post of [published_store]. *)
Definition delivered : PostRow :=
  {| id := 1; content := "check this"; scheduled_for := 2000;
     status := Published; error := None; created_at := 500;
     url := None; image := None |}.

Definition blob : BlobRef :=
  {| blob_type := "blob"; blob_link := "test";
     mimeType := "image/jpeg"; size := 1024 |}.

Definition picture : Image :=
  {| image_url := "blob:picture"; image_type := "image/jpeg";
     alt := Some "Test image"; blobRef := Some blob |}.

(** A draft with both a link and an image. *)
Definition both : Bluesky.PostDraft :=
  {| Bluesky.content := "Test with both URL and image";
     Bluesky.url := Some "https://example.com";
     Bluesky.image := Some picture;
     Bluesky.scheduledAt := 1672574400000 |}.

Definition card : Bluesky.External :=
  {| Bluesky.uri := "https://example.com"; Bluesky.title := "Example";
     Bluesky.description := "Test"; Bluesky.thumb := None;
     Bluesky.localImageRef := None |}.

Definition resolver (u : string) (c : Creds) : Thrown + Bluesky.External :=
  inr card.

Definition no_facets (text : string) : list unit := [].

Definition iso (t : Z) : string := "2023-01-01T12:00:00.000Z".

(** A transport that never reaches the server. *)
Definition offline (req : Request) (st : State)
  : RemoteDB.FetchOutcome * State :=
  (RemoteDB.Rejects (ErrorObj "Failed to fetch"), st).

End Sample.

(* ================================================================== *)
(** * Vocabulary for the routes and the client                          *)
(* ================================================================== *)

Module Observe.

Import Types.
Import Schema.
Import Api.

(** The ids of the posts [agent.post] was called for, in call order. *)
Definition publish_ids (tr : list Event) : list Z :=
  flat_map (fun e => match e with
                     | AgentPost p _ _ => [p]
                     | _ => []
                     end) tr.

Definition is_select_credentials (e : Event) : bool :=
  match e with
  | Query SelectCredentials => true
  | _ => false
  end.

(** The columns of a row other than [status] and [error]. *)
Definition fixed_part (r : PostRow)
  : Z * string * Z * Z * option string * option Image :=
  (id r, content r, scheduled_for r, created_at r, url r, image r).

(** A row carries an error text exactly when it is failed. *)
Definition error_matches_status (r : PostRow) : Prop :=
  match status r with
  | Failed => error r <> None
  | _ => error r = None
  end.

(** A call to the network is backed by the store: a login presents the
    first credentials row, a post creation sends the content of a post of
    the batch; both are made for a post of the batch. *)
Definition backed_by (creds : list CredentialsRow) (batch : list PostRow)
           (e : Event) : Prop :=
  match e with
  | Query _ => True
  | AgentLogin i a b _ =>
      In i (map id batch) /\
      exists c, hd_error creds = Some c /\
                a = identifier c /\ b = password c
  | AgentPost i t _ =>
      exists p, In p batch /\ id p = i /\ t = content p
  end.

(** What the iteration of a due post [p] leaves: the record [after] is
    [p] with the status and error of the iteration's end [v], and the
    [events] hold the calls that led there.  Without a credentials row the
    end is the [TypeError]; with one, a login for [p] with its values is
    among the events, the end is the login's error when it was refused, and
    otherwise a post creation for [p] with its content is among the events
    and its outcome is the end. *)
Definition attempted (creds : list CredentialsRow) (p : PostRow)
           (events : list Event) (after : option PostRow) : Prop :=
  exists v : option Thrown,
    after =
    Some {| id := id p; content := content p;
            scheduled_for := scheduled_for p;
            status := match v with None => Published | Some _ => Failed end;
            error := match v with
                     | None => error p
                     | Some e => Some (errorMessage e)
                     end;
            created_at := created_at p; url := url p; image := image p |} /\
    match creds with
    | [] => v = Some (ErrorObj (undefined_property_message "identifier"))
    | c :: _ =>
        exists l,
          In (AgentLogin (id p) (identifier c) (password c) l) events /\
          match l with
          | Some e => v = Some e
          | None => In (AgentPost (id p) (content p) v) events
          end
    end.

(** The cron handler, cut at the [await] of its SELECT: [cron_select] is
    the handler up to the rows of the query, [cron_loop] is the rest, from
    the loop to the response. *)
Definition cron_select (now : Z) (st : State) : list PostRow * State :=
  (select_due_posts now (db st),
   {| db := db st; trace := (trace st ++ [Query SelectDuePosts])%list |}).

Definition cron_loop (w : World) (batch : list PostRow) (st : State)
  : (Thrown + Response) * State :=
  (for_of batch (loop_body w) ;;; ret (res_json JsonSuccess)) st.

(** Two authorised cron requests that overlap: the second request's SELECT
    is answered while the first handler waits at an [await], before any
    write of the first; then the first handler's loop runs to its response,
    then the second's.  The result is the state between the two loops and
    the final state. *)
Definition overlapping_cron_runs (w : World) (now1 now2 : Z) (st : State)
  : State * State :=
  let (batch1, s1) := cron_select now1 st in
  let (batch2, s2) := cron_select now2 s1 in
  let s3 := snd (cron_loop w batch1 s2) in
  (s3, snd (cron_loop w batch2 s3)).

(** Values the columns and the body parser take: an id or sequence value
    of the INTEGER column; an instant whose ISO-8601 text has a four-digit
    year from 0001 to 9999; a text without NUL and of at most 1000 bytes
    (ten such texts, with every byte escaped, stay below the parser's
    limit of 100kb). *)
Definition int4 (z : Z) : Prop := -2147483648 <= z <= 2147483647.

Definition four_digit_year (t : Z) : Prop :=
  -62135596800000 <= t <= 253402300799999.

Definition plain_text (s : string) : Prop :=
  (String.length s <= 1000)%nat /\
  ~ In Ascii.zero (list_ascii_of_string s).

Definition plain_option (o : option string) : Prop :=
  match o with
  | Some s => plain_text s
  | None => True
  end.

Definition plain_image (o : option Image) : Prop :=
  match o with
  | None => True
  | Some i =>
      plain_text (image_url i) /\ plain_text (image_type i) /\
      plain_option (alt i) /\
      match blobRef i with
      | None => True
      | Some b =>
          plain_text (blob_type b) /\ plain_text (blob_link b) /\
          plain_text (mimeType b) /\ 0 <= size b <= 9007199254740991
      end
  end.

Definition ordinary_draft (d : Draft) : Prop :=
  plain_text (Types.content d) /\
  four_digit_year (Types.scheduledFor d) /\
  plain_option (Types.error d) /\
  plain_option (Types.url d) /\
  plain_image (Types.image d).

(** The rows a [JsonPosts] body lists; nothing for any other body. *)
Definition listed (b : Thrown + Body) : list PostRow :=
  match b with
  | inr (JsonPosts rows) => rows
  | _ => []
  end.

End Observe.

Module Scenario.

Import Types.
Import Schema.
Import Api.

(** [process.env] without [CRON_SECRET]. *)
Definition env_without_secret : Env := {| CRON_SECRET := None |}.

(** A store in which nothing is due at [Sample.now]. *)
Definition quiet_store : Database :=
  {| posts := [Sample.later; Sample.sent]; posts_id_seq := 5;
     credentials := [Sample.account]; credentials_id_seq := 2 |}.

(** A network that accepts the first login and refuses every later one. *)
Definition expiring : World :=
  {| login_outcome :=
       fun history _ _ =>
         if existsb is_login history
         then Some (ErrorObj "Rate Limit Exceeded")
         else None;
     post_outcome := fun _ _ => None |}.

(** The post of [Sample.one_post_and_account]. *)
Definition waiting : PostRow :=
  {| id := 1; content := "check this"; scheduled_for := 2000;
     status := Pending; error := None; created_at := 500;
     url := None; image := None |}.

End Scenario.

(* ================================================================== *)
(** * Properties                                                        *)
(* ================================================================== *)

Import Types.
Import Schema.
Import Api.
Import Run.
Import Observe.

Unset Implicit Arguments.

(** Unfold one iteration of the loop down to the state transformer. *)
Ltac run_handler :=
  unfold verdict, attempt, loop_body, try_catch, try_block, catch_block,
    get_identifier, get_password, agent_login, agent_post, query, log,
    bind, ret, throw, select_credentials_limit_1;
  simpl.

(** ** Tables *)

Lemma Status_eqb_eq (a b : Status) : Status_eqb a b = true <-> a = b.
Proof. destruct a, b; simpl; split; intro H; try reflexivity; discriminate. Qed.

Lemma is_due_true now r : is_due now r = true <-> due now r.
Proof.
  unfold is_due, due. rewrite andb_true_iff, Status_eqb_eq, Z.leb_le.
  tauto.
Qed.

Lemma is_due_false now r : is_due now r = false <-> not_due now r.
Proof.
  unfold is_due, not_due. rewrite andb_false_iff, Z.leb_gt.
  destruct (status r); simpl; split; intro H; intuition discriminate.
Qed.

Lemma select_due_posts_In now d r :
  In r (select_due_posts now d) <-> In r (posts d) /\ due now r.
Proof.
  unfold select_due_posts. rewrite filter_In, is_due_true. tauto.
Qed.

Lemma filter_keeps_ids (keep : PostRow -> bool) (rows : list PostRow) k :
  In k (map id (filter keep rows)) -> In k (map id rows).
Proof.
  rewrite !in_map_iff. intros [r [Hk Hr]].
  apply filter_In in Hr. exists r. tauto.
Qed.

Lemma filter_keeps_pkey (keep : PostRow -> bool) (rows : list PostRow) :
  NoDup (map id rows) -> NoDup (map id (filter keep rows)).
Proof.
  intro Hnd. induction rows as [|r rows IH]; simpl; [constructor|].
  apply NoDup_cons_iff in Hnd. destruct Hnd as [Hfresh Hnd].
  destruct (keep r); simpl; auto.
  apply NoDup_cons; auto.
  intro Hin. apply Hfresh. eapply filter_keeps_ids; eauto.
Qed.

Lemma select_due_posts_pkey now d :
  posts_pkey d -> NoDup (map id (select_due_posts now d)).
Proof. apply filter_keeps_pkey. Qed.

Lemma lookup_post_In d r :
  posts_pkey d -> In r (posts d) -> lookup_post (id r) d = Some r.
Proof.
  unfold posts_pkey, lookup_post. induction (posts d) as [|a l IH]; simpl.
  - intros _ [].
  - intros Hnd [Heq | Hin].
    + subst. now rewrite Z.eqb_refl.
    + inversion Hnd as [|? ? Hnotin Hnd']; subst.
      destruct (id a =? id r) eqn:E.
      * apply Z.eqb_eq in E. exfalso. apply Hnotin. rewrite E.
        now apply in_map.
      * now apply IH.
Qed.

Lemma lookup_post_Some post_id d r :
  lookup_post post_id d = Some r -> In r (posts d) /\ id r = post_id.
Proof.
  unfold lookup_post. intro H. apply find_some in H.
  now rewrite Z.eqb_eq in H.
Qed.

Lemma lookup_update_status_other s q post_id d :
  post_id <> q ->
  lookup_post post_id (update_status s q d) = lookup_post post_id d.
Proof.
  intro Hne. unfold lookup_post, update_status. simpl.
  induction (posts d) as [|a l IH]; simpl; [reflexivity|].
  destruct (id a =? q) eqn:E; simpl.
  - apply Z.eqb_eq in E.
    destruct (id a =? post_id) eqn:E'; [apply Z.eqb_eq in E'; lia | exact IH].
  - destruct (id a =? post_id); [reflexivity | exact IH].
Qed.

Lemma lookup_update_status_error_other s e q post_id d :
  post_id <> q ->
  lookup_post post_id (update_status_error s e q d) = lookup_post post_id d.
Proof.
  intro Hne. unfold lookup_post, update_status_error. simpl.
  induction (posts d) as [|a l IH]; simpl; [reflexivity|].
  destruct (id a =? q) eqn:E; simpl.
  - apply Z.eqb_eq in E.
    destruct (id a =? post_id) eqn:E'; [apply Z.eqb_eq in E'; lia | exact IH].
  - destruct (id a =? post_id); [reflexivity | exact IH].
Qed.

Lemma lookup_update_status_same s q d :
  lookup_post q (update_status s q d) =
  option_map (set_status s) (lookup_post q d).
Proof.
  unfold lookup_post, update_status. simpl.
  induction (posts d) as [|a l IH]; simpl; [reflexivity|].
  destruct (id a =? q) eqn:E; simpl; rewrite E; [reflexivity | exact IH].
Qed.

Lemma lookup_update_status_error_same s e q d :
  lookup_post q (update_status_error s e q d) =
  option_map (set_status_error s e) (lookup_post q d).
Proof.
  unfold lookup_post, update_status_error. simpl.
  induction (posts d) as [|a l IH]; simpl; [reflexivity|].
  destruct (id a =? q) eqn:E; simpl; rewrite E; [reflexivity | exact IH].
Qed.

Lemma lookup_settle_other v q post_id d :
  post_id <> q -> lookup_post post_id (settle v q d) = lookup_post post_id d.
Proof.
  destruct v; simpl; intro H.
  - now apply lookup_update_status_error_other.
  - now apply lookup_update_status_other.
Qed.

Lemma lookup_settle_same v q d :
  lookup_post q (settle v q d) = option_map (settled_row v) (lookup_post q d).
Proof.
  destruct v; simpl.
  - apply lookup_update_status_error_same.
  - apply lookup_update_status_same.
Qed.

Lemma settle_credentials v q d : credentials (settle v q d) = credentials d.
Proof. now destruct v. Qed.

Lemma settle_ids v q d : map id (posts (settle v q d)) = map id (posts d).
Proof.
  destruct v; simpl; rewrite map_map; apply map_ext; intro r;
    now destruct (id r =? q).
Qed.

Lemma settle_seq v q d : posts_id_seq (settle v q d) = posts_id_seq d.
Proof. now destruct v. Qed.

(** ** One iteration of the loop *)

Lemma loop_body_eq w post st :
  loop_body w post st =
  (inr tt,
   {| db := settle (verdict w post st) (id post) (db st);
      trace := (trace st
                ++ attempt w (credentials (db st)) post (trace st)
                ++ [Query (settle_sql (verdict w post st) (id post))])%list |}).
Proof.
  run_handler.
  destruct (credentials (db st)) as [|c cs]; simpl.
  - now rewrite <- app_assoc.
  - destruct (login_outcome w _ _ _) as [e|]; simpl.
    + now rewrite <- !app_assoc.
    + destruct (post_outcome w _ _) as [e|]; simpl;
        now rewrite <- !app_assoc.
Qed.

Lemma verdict_no_credentials w post st :
  credentials (db st) = [] ->
  verdict w post st =
  Some (ErrorObj (undefined_property_message "identifier")).
Proof. run_handler. now intros ->. Qed.

Lemma verdict_refused w post st c :
  hd_error (credentials (db st)) = Some c ->
  refused w c ->
  exists e,
    verdict w post st = Some e /\
    attempt w (credentials (db st)) post (trace st) =
    [Query SelectCredentials;
     AgentLogin (id post) (identifier c) (password c) (Some e)].
Proof.
  intros Hc Hr. run_handler.
  destruct (credentials (db st)) as [|c' cs]; [discriminate|].
  simpl in Hc. injection Hc as ->. simpl.
  specialize (Hr (trace st ++ [Query SelectCredentials])%list).
  destruct (login_outcome w _ _ _) as [e|]; [|contradiction].
  now exists e.
Qed.

Lemma attempt_accepted w post st c :
  hd_error (credentials (db st)) = Some c ->
  accepted w c ->
  exists o,
    attempt w (credentials (db st)) post (trace st) =
    [Query SelectCredentials;
     AgentLogin (id post) (identifier c) (password c) None;
     AgentPost (id post) (content post) o].
Proof.
  intros Hc Ha. unfold attempt.
  destruct (credentials (db st)) as [|c' cs]; [discriminate|].
  simpl in Hc. injection Hc as ->.
  rewrite Ha. eauto.
Qed.

Lemma after_iteration_eq w post st :
  after_iteration w post st =
  {| db := settle (verdict w post st) (id post) (db st);
     trace := (trace st
               ++ attempt w (credentials (db st)) post (trace st)
               ++ [Query (settle_sql (verdict w post st) (id post))])%list |}.
Proof. unfold after_iteration. now rewrite loop_body_eq. Qed.

(** ** The loop *)

Lemma for_of_cons w post rest st :
  for_of (post :: rest) (loop_body w) st =
  for_of rest (loop_body w) (after_iteration w post st).
Proof.
  unfold after_iteration. simpl. unfold bind at 1.
  now rewrite loop_body_eq.
Qed.

Lemma loop_returns w batch st :
  for_of batch (loop_body w) st = (inr tt, after_loop w batch st).
Proof.
  unfold after_loop. revert st.
  induction batch as [|p rest IH]; intro st; [reflexivity|].
  rewrite for_of_cons. apply IH.
Qed.

Lemma after_loop_nil w st : after_loop w [] st = st.
Proof. reflexivity. Qed.

Lemma after_loop_cons w post rest st :
  after_loop w (post :: rest) st =
  after_loop w rest (after_iteration w post st).
Proof. unfold after_loop. now rewrite for_of_cons. Qed.

Lemma after_loop_app w before after st :
  after_loop w (before ++ after) st =
  after_loop w after (after_loop w before st).
Proof.
  revert st. induction before as [|p rest IH]; intro st; simpl.
  - reflexivity.
  - rewrite !after_loop_cons. apply IH.
Qed.

Lemma after_iteration_credentials w post st :
  credentials (db (after_iteration w post st)) = credentials (db st).
Proof. rewrite after_iteration_eq. simpl. apply settle_credentials. Qed.

Lemma after_loop_credentials w batch st :
  credentials (db (after_loop w batch st)) = credentials (db st).
Proof.
  revert st. induction batch as [|p rest IH]; intro st; [reflexivity|].
  rewrite after_loop_cons, IH. apply after_iteration_credentials.
Qed.

Lemma after_loop_ids w batch st :
  map id (posts (db (after_loop w batch st))) = map id (posts (db st)).
Proof.
  revert st. induction batch as [|p rest IH]; intro st; [reflexivity|].
  rewrite after_loop_cons, IH, after_iteration_eq. simpl. apply settle_ids.
Qed.

Lemma after_loop_seq w batch st :
  posts_id_seq (db (after_loop w batch st)) = posts_id_seq (db st).
Proof.
  revert st. induction batch as [|p rest IH]; intro st; [reflexivity|].
  rewrite after_loop_cons, IH, after_iteration_eq. simpl. apply settle_seq.
Qed.

(** The loop leaves alone every post that is not in its batch. *)
Lemma after_loop_lookup_other w batch st post_id :
  ~ In post_id (map id batch) ->
  lookup_post post_id (db (after_loop w batch st)) =
  lookup_post post_id (db st).
Proof.
  revert st. induction batch as [|p rest IH]; intros st Hnotin.
  - reflexivity.
  - rewrite after_loop_cons, IH by (simpl in Hnotin; tauto).
    rewrite after_iteration_eq. simpl.
    apply lookup_settle_other. simpl in Hnotin. intro. apply Hnotin. auto.
Qed.

(** What the loop leaves of a post of its batch is what that post's own
    iteration left. *)
Lemma after_loop_lookup_member w before post after st :
  NoDup (map id (before ++ post :: after)) ->
  lookup_post (id post) (db (after_loop w (before ++ post :: after) st)) =
  option_map
    (settled_row (verdict w post (after_loop w before st)))
    (lookup_post (id post) (db st)).
Proof.
  intro Hnd. rewrite map_app in Hnd. simpl in Hnd.
  pose proof (NoDup_remove_2 _ _ _ Hnd) as Hnotin.
  rewrite after_loop_app, after_loop_cons.
  rewrite after_loop_lookup_other by (intro; apply Hnotin, in_or_app; auto).
  rewrite after_iteration_eq. simpl. rewrite lookup_settle_same.
  rewrite after_loop_lookup_other by (intro; apply Hnotin, in_or_app; auto).
  reflexivity.
Qed.

(** ** Traces *)

Lemma count_app f (l1 l2 : list Event) :
  count f (l1 ++ l2) = (count f l1 + count f l2)%nat.
Proof. unfold count. now rewrite filter_app, length_app. Qed.

Lemma new_events_app (st st' : State) delta :
  trace st' = (trace st ++ delta)%list -> new_events st st' = delta.
Proof.
  intro H. unfold new_events. rewrite H, skipn_app, skipn_all, Nat.sub_diag.
  reflexivity.
Qed.

Lemma after_loop_extends w batch st :
  exists delta, trace (after_loop w batch st) = (trace st ++ delta)%list.
Proof.
  revert st. induction batch as [|p rest IH]; intro st.
  - exists []. simpl. now rewrite app_nil_r.
  - rewrite after_loop_cons. destruct (IH (after_iteration w p st)) as [d Hd].
    rewrite Hd, after_iteration_eq. simpl. rewrite <- app_assoc. eauto.
Qed.

Lemma count_new_events f (st st' : State) :
  (exists delta, trace st' = (trace st ++ delta)%list) ->
  count f (new_events st st') = (count f (trace st') - count f (trace st))%nat.
Proof.
  intros [delta H]. rewrite (new_events_app st st' delta H), H, count_app. lia.
Qed.

(** Each iteration writes once, to its own post. *)
Lemma count_writes w batch st post_id :
  count (is_write_to post_id) (trace (after_loop w batch st)) =
  (count (is_write_to post_id) (trace st)
   + count_occ Z.eq_dec (map id batch) post_id)%nat.
Proof.
  revert st. induction batch as [|p rest IH]; intro st.
  - rewrite ?after_loop_nil. simpl. lia.
  - rewrite after_loop_cons, IH, after_iteration_eq. simpl.
    rewrite !count_app.
    assert (Ha : count (is_write_to post_id)
                   (attempt w (credentials (db st)) p (trace st)) = 0%nat).
    { unfold attempt. destruct (credentials (db st)); [reflexivity|].
      simpl. now destruct (login_outcome w _ _ _). }
    assert (Hs : count (is_write_to post_id)
                   [Query (settle_sql (verdict w p st) (id p))] =
                 if Z.eq_dec (id p) post_id then 1%nat else 0%nat).
    { unfold count. destruct (verdict w p st); simpl;
        destruct (Z.eq_dec (id p) post_id) as [E|E];
        [ apply Z.eqb_eq in E | apply Z.eqb_neq in E
        | apply Z.eqb_eq in E | apply Z.eqb_neq in E ];
        now rewrite E. }
    rewrite Ha, Hs. destruct (Z.eq_dec (id p) post_id); lia.
Qed.

(** An iteration publishes at most once, and only for its own post. *)
Lemma count_publish_attempt w creds p history post_id :
  (count (is_publish_for post_id) (attempt w creds p history)
   <= if Z.eq_dec (id p) post_id then 1 else 0)%nat.
Proof.
  unfold attempt. destruct creds as [|c cs]; simpl.
  - destruct (Z.eq_dec (id p) post_id); unfold count; simpl; lia.
  - destruct (login_outcome w _ _ _); unfold count; simpl.
    + destruct (Z.eq_dec (id p) post_id); lia.
    + destruct (Z.eq_dec (id p) post_id) as [E|E];
        [ apply Z.eqb_eq in E | apply Z.eqb_neq in E ];
        rewrite E; simpl; lia.
Qed.

Lemma count_publish_settle v q post_id :
  count (is_publish_for post_id) [Query (settle_sql v q)] = 0%nat.
Proof. now destruct v. Qed.

Lemma count_publish_le w batch st post_id :
  (count (is_publish_for post_id) (trace (after_loop w batch st))
   <= count (is_publish_for post_id) (trace st)
      + count_occ Z.eq_dec (map id batch) post_id)%nat.
Proof.
  revert st. induction batch as [|p rest IH]; intro st.
  - rewrite ?after_loop_nil. simpl. lia.
  - rewrite after_loop_cons. etransitivity; [apply IH|].
    rewrite after_iteration_eq. simpl.
    rewrite !count_app, count_publish_settle.
    pose proof (count_publish_attempt w (credentials (db st)) p (trace st)
                  post_id).
    destruct (Z.eq_dec (id p) post_id); lia.
Qed.

(** With accepted credentials every iteration publishes exactly once. *)
Lemma count_publish_accepted w batch st post_id c :
  hd_error (credentials (db st)) = Some c ->
  accepted w c ->
  count (is_publish_for post_id) (trace (after_loop w batch st)) =
  (count (is_publish_for post_id) (trace st)
   + count_occ Z.eq_dec (map id batch) post_id)%nat.
Proof.
  intros Hc Ha. revert st Hc.
  induction batch as [|p rest IH]; intros st Hc.
  - rewrite ?after_loop_nil. simpl. lia.
  - rewrite after_loop_cons, IH
      by now rewrite after_iteration_credentials.
    rewrite after_iteration_eq. simpl.
    rewrite !count_app, count_publish_settle.
    destruct (attempt_accepted w p st c Hc Ha) as [o ->].
    unfold count at 2. simpl.
    destruct (Z.eq_dec (id p) post_id) as [E|E];
      [ apply Z.eqb_eq in E | apply Z.eqb_neq in E ];
      rewrite E; simpl; lia.
Qed.

(** Without a publish call in the history and with refused credentials,
    there is none afterwards; there is one login per iteration. *)
Lemma count_refused w batch st c :
  hd_error (credentials (db st)) = Some c ->
  refused w c ->
  count is_publish (trace (after_loop w batch st)) =
  count is_publish (trace st) /\
  count is_login (trace (after_loop w batch st)) =
  (count is_login (trace st) + List.length batch)%nat.
Proof.
  intros Hc Hr. revert st Hc.
  induction batch as [|p rest IH]; intros st Hc.
  - rewrite ?after_loop_nil. simpl. lia.
  - rewrite after_loop_cons.
    destruct (IH (after_iteration w p st)) as [IHp IHl];
      [now rewrite after_iteration_credentials|].
    rewrite IHp, IHl, after_iteration_eq. simpl.
    destruct (verdict_refused w p st c Hc Hr) as [e [-> ->]].
    rewrite !count_app. unfold count. simpl. lia.
Qed.

(** Without credentials no iteration reaches the network. *)
Lemma count_no_credentials w batch st :
  credentials (db st) = [] ->
  count is_publish (trace (after_loop w batch st)) =
  count is_publish (trace st) /\
  count is_login (trace (after_loop w batch st)) =
  count is_login (trace st).
Proof.
  intro Hc. revert st Hc.
  induction batch as [|p rest IH]; intros st Hc.
  - rewrite ?after_loop_nil. simpl. lia.
  - rewrite after_loop_cons.
    destruct (IH (after_iteration w p st)) as [IHp IHl];
      [now rewrite after_iteration_credentials|].
    rewrite IHp, IHl, after_iteration_eq. simpl.
    rewrite (verdict_no_credentials w p st Hc). unfold attempt.
    rewrite Hc, !count_app. unfold count. simpl. lia.
Qed.

(** ** The cron route *)

Lemma strict_neq_false a b : strict_neq a b = false <-> a = Some b.
Proof.
  destruct a as [s|]; simpl.
  - rewrite negb_false_iff, String.eqb_eq. split; congruence.
  - split; discriminate.
Qed.

Lemma strict_neq_true a b : strict_neq a b = true <-> a <> Some b.
Proof.
  rewrite <- strict_neq_false. destruct (strict_neq a b); split; congruence.
Qed.

Lemma cron_unauthorized env w now authHeader st :
  authHeader <> Some (bearer env) ->
  post_cron_check_posts env w now authHeader st =
  (inr (res_status_json 401 (JsonError "Unauthorized")), st).
Proof.
  intro H. apply strict_neq_true in H.
  unfold post_cron_check_posts. fold (bearer env). now rewrite H.
Qed.

Lemma cron_authorized env w now st :
  post_cron_check_posts env w now (Some (bearer env)) st =
  (inr (res_json JsonSuccess),
   after_loop w (select_due_posts now (db st)) (selected st)).
Proof.
  unfold post_cron_check_posts. fold (bearer env).
  rewrite (proj2 (strict_neq_false _ _) eq_refl).
  unfold bind at 1. unfold query at 1. simpl.
  unfold bind. fold (selected st).
  change {| db := db st; trace := (trace st ++ [Query SelectDuePosts])%list |}
    with (selected st).
  now rewrite loop_returns.
Qed.

Lemma pkey_injective d p q :
  posts_pkey d -> In p (posts d) -> In q (posts d) -> id p = id q -> p = q.
Proof.
  intros Hk Hp Hq E.
  pose proof (lookup_post_In d p Hk Hp) as H1.
  pose proof (lookup_post_In d q Hk Hq) as H2.
  rewrite E in H1. congruence.
Qed.

Lemma due_not_not_due now r : due now r -> not_due now r -> False.
Proof.
  intros [Hs Ht] [H | [H | H]]; try congruence. lia.
Qed.

Lemma due_id_in_batch now d p :
  In p (posts d) -> due now p -> In (id p) (map id (select_due_posts now d)).
Proof.
  intros Hin Hd. apply in_map. now apply select_due_posts_In.
Qed.

Lemma not_due_id_not_in_batch now d p :
  posts_pkey d -> In p (posts d) -> not_due now p ->
  ~ In (id p) (map id (select_due_posts now d)).
Proof.
  intros Hk Hin Hnd Hid. apply in_map_iff in Hid.
  destruct Hid as [q [E Hq]]. apply select_due_posts_In in Hq.
  destruct Hq as [Hq Hdue].
  assert (q = p) by (eapply pkey_injective; eauto). subst.
  eapply due_not_not_due; eauto.
Qed.

Lemma selected_extends w batch st :
  exists delta,
    trace (after_loop w batch (selected st)) = (trace st ++ delta)%list.
Proof.
  destruct (after_loop_extends w batch (selected st)) as [d Hd].
  exists (Query SelectDuePosts :: d). rewrite Hd. simpl.
  now rewrite <- app_assoc.
Qed.

Lemma count_selected f st :
  f (Query SelectDuePosts) = false ->
  count f (trace (selected st)) = count f (trace st).
Proof.
  intro H. simpl. rewrite count_app. unfold count at 2. simpl.
  rewrite H. simpl. lia.
Qed.

(** C1.  A run of the cron loop on a store whose credentials are present
    and accepted by the network makes exactly one publish call for each post
    that is pending and due when the batch is selected; it makes no publish
    call for, and sends no write to, any post that is published, failed or
    scheduled in the future, and leaves the record of such a post as it
    was. *)
Theorem cron_publishes_each_due_post_once :
  forall env w now st c,
    posts_pkey (db st) ->
    hd_error (credentials (db st)) = Some c ->
    accepted w c ->
    let st' := snd (post_cron_check_posts env w now (Some (bearer env)) st) in
    (forall p, In p (posts (db st)) -> due now p ->
       count (is_publish_for (id p)) (new_events st st') = 1%nat) /\
    (forall p, In p (posts (db st)) -> not_due now p ->
       count (is_publish_for (id p)) (new_events st st') = 0%nat /\
       count (is_write_to (id p)) (new_events st st') = 0%nat /\
       lookup_post (id p) (db st') = Some p).
Proof.
  intros env w now st c Hk Hc Ha st'. subst st'.
  rewrite cron_authorized. simpl.
  set (batch := select_due_posts now (db st)).
  pose proof (select_due_posts_pkey now (db st) Hk) as Hnd.
  fold batch in Hnd.
  split.
  - intros p Hin Hdue.
    rewrite count_new_events by apply selected_extends.
    rewrite (count_publish_accepted w batch (selected st) (id p) c Hc Ha).
    rewrite count_selected by reflexivity.
    pose proof (due_id_in_batch now (db st) p Hin Hdue) as Hid.
    fold batch in Hid.
    rewrite (proj1 (NoDup_count_occ' Z.eq_dec _) Hnd _ Hid). lia.
  - intros p Hin Hnot.
    pose proof (not_due_id_not_in_batch now (db st) p Hk Hin Hnot) as Hid.
    fold batch in Hid.
    pose proof (proj1 (count_occ_not_In Z.eq_dec _ _) Hid) as H0.
    repeat split.
    + rewrite count_new_events by apply selected_extends.
      pose proof (count_publish_le w batch (selected st) (id p)) as Hle.
      rewrite count_selected in Hle by reflexivity. lia.
    + rewrite count_new_events by apply selected_extends.
      rewrite count_writes, count_selected by reflexivity. lia.
    + rewrite after_loop_lookup_other by exact Hid.
      simpl. now apply lookup_post_In.
Qed.

Lemma sample_store_pkey : posts_pkey Sample.store.
Proof.
  unfold posts_pkey. simpl.
  repeat constructor; simpl; intuition discriminate.
Defined.

Lemma cron_publishes_each_due_post_once_witness :
  count (is_publish_for 1)
    (new_events (Sample.start Sample.store)
       (snd (post_cron_check_posts Sample.env Sample.friendly Sample.now
               (Some "Bearer s3cret") (Sample.start Sample.store)))) = 1%nat
  /\ lookup_post 3
       (db (snd (post_cron_check_posts Sample.env Sample.friendly Sample.now
                   (Some "Bearer s3cret") (Sample.start Sample.store)))) =
     Some Sample.sent.
Proof.
  pose proof (cron_publishes_each_due_post_once
                Sample.env Sample.friendly Sample.now
                (Sample.start Sample.store) Sample.account
                sample_store_pkey eq_refl (fun _ => eq_refl)) as [Hdue Hnot].
  split.
  - apply (Hdue Sample.hello).
    + simpl. auto.
    + split; [reflexivity | discriminate].
  - apply (Hnot Sample.sent).
    + simpl. auto.
    + left. reflexivity.
Defined.

(** ** What becomes of a post of the batch *)

Lemma after_loop_member w batch st p :
  NoDup (map id batch) -> In p batch ->
  exists before after,
    batch = (before ++ p :: after)%list /\
    lookup_post (id p) (db (after_loop w batch st)) =
    option_map (settled_row (verdict w p (after_loop w before st)))
               (lookup_post (id p) (db st)).
Proof.
  intros Hnd Hin. destruct (in_split _ _ Hin) as [before [after E]].
  exists before, after. split; [exact E|]. subst batch.
  now apply after_loop_lookup_member.
Qed.

Lemma member_events w before p after st :
  exists d1 d2,
    trace (after_loop w (before ++ p :: after) st) =
    (trace st ++ d1
     ++ attempt w (credentials (db st)) p (trace (after_loop w before st))
     ++ d2)%list.
Proof.
  rewrite after_loop_app, after_loop_cons.
  destruct (after_loop_extends w before st) as [d1 H1].
  destruct (after_loop_extends w after
              (after_iteration w p (after_loop w before st))) as [d2 H2].
  rewrite H2, after_iteration_eq. simpl.
  rewrite after_loop_credentials.
  exists d1.
  exists (Query (settle_sql (verdict w p (after_loop w before st)) (id p))
          :: d2).
  rewrite (app_assoc (trace st) d1), <- H1, <- !app_assoc. reflexivity.
Qed.

Lemma settled_row_status v r :
  status (settled_row v r) = Published \/ status (settled_row v r) = Failed.
Proof. destruct v; simpl; auto. Qed.

(** Every due post gets its iteration, whatever happens in the others. *)
Lemma cron_attempts_every_due_post env w now st p :
  posts_pkey (db st) -> In p (posts (db st)) -> due now p ->
  let st' := snd (post_cron_check_posts env w now (Some (bearer env)) st) in
  count (is_write_to (id p)) (new_events st st') = 1%nat /\
  exists v, lookup_post (id p) (db st') = Some (settled_row v p).
Proof.
  intros Hk Hin Hdue st'. subst st'. rewrite cron_authorized. simpl.
  pose proof (select_due_posts_pkey now (db st) Hk) as Hnd.
  pose proof (due_id_in_batch now (db st) p Hin Hdue) as Hid.
  split.
  - rewrite count_new_events by apply selected_extends.
    rewrite count_writes, count_selected by reflexivity.
    rewrite (proj1 (NoDup_count_occ' Z.eq_dec _) Hnd _ Hid). lia.
  - assert (Hb : In p (select_due_posts now (db st)))
      by now apply select_due_posts_In.
    destruct (after_loop_member w _ (selected st) p Hnd Hb)
      as [before [after [_ ->]]].
    simpl. rewrite (lookup_post_In (db st) p Hk Hin). simpl. eauto.
Qed.

(** Without credentials: no call reaches the network, and every due post is
    marked failed with the message of the [TypeError]. *)
Lemma cron_without_credentials env w now st :
  posts_pkey (db st) -> credentials (db st) = [] ->
  let st' := snd (post_cron_check_posts env w now (Some (bearer env)) st) in
  count is_login (new_events st st') = 0%nat /\
  count is_publish (new_events st st') = 0%nat /\
  forall p, In p (posts (db st)) -> due now p ->
    lookup_post (id p) (db st') =
    Some (set_status_error Failed (undefined_property_message "identifier") p).
Proof.
  intros Hk Hc st'. subst st'. rewrite cron_authorized. simpl.
  destruct (count_no_credentials w (select_due_posts now (db st))
              (selected st) Hc) as [Hp Hl].
  repeat split.
  - rewrite count_new_events by apply selected_extends.
    rewrite Hl, count_selected by reflexivity. lia.
  - rewrite count_new_events by apply selected_extends.
    rewrite Hp, count_selected by reflexivity. lia.
  - intros p Hin Hdue.
    pose proof (select_due_posts_pkey now (db st) Hk) as Hnd.
    assert (Hb : In p (select_due_posts now (db st)))
      by now apply select_due_posts_In.
    destruct (after_loop_member w _ (selected st) p Hnd Hb)
      as [before [after [_ ->]]].
    rewrite verdict_no_credentials
      by now rewrite after_loop_credentials.
    simpl. now rewrite (lookup_post_In (db st) p Hk Hin).
Qed.

(** C2.  The cron route on a store with one due post and no credential
    record, whatever the network does: no login and no publish call is made,
    but the due post does not stay as it was; it is marked failed, with the
    message of the [TypeError] raised by reading [creds.identifier]. *)
Theorem cron_without_credentials_fails_due_post :
  forall w,
    let st := Sample.start Sample.store_without_credentials in
    let st' := snd (post_cron_check_posts Sample.env w Sample.now
                      (Some "Bearer s3cret") st) in
    count is_login (trace st') = 0%nat /\
    count is_publish (trace st') = 0%nat /\
    lookup_post 1 (db st) = Some Sample.hello /\
    lookup_post 1 (db st') =
    Some {| id := 1; content := "hello"; scheduled_for := 999;
            status := Failed;
            error := Some "Cannot read properties of undefined (reading 'identifier')";
            created_at := 500; url := None; image := None |}.
Proof. intro w. vm_compute. repeat split. Qed.

Lemma verdict_thrown w p st e :
  fst (try_block w p st) = inl e -> verdict w p st = Some e.
Proof. unfold verdict. now intros ->. Qed.

(** ** What the iteration of a due post leaves *)

Lemma attempt_and_verdict w p st :
  match credentials (db st) with
  | [] =>
      verdict w p st =
      Some (ErrorObj (undefined_property_message "identifier"))
  | c :: _ =>
      exists l,
        In (AgentLogin (id p) (identifier c) (password c) l)
           (attempt w (credentials (db st)) p (trace st)) /\
        match l with
        | Some e => verdict w p st = Some e
        | None =>
            In (AgentPost (id p) (content p) (verdict w p st))
               (attempt w (credentials (db st)) p (trace st))
        end
  end.
Proof.
  run_handler.
  destruct (credentials (db st)) as [|c cs]; simpl; [reflexivity|].
  destruct (login_outcome w _ _ _) as [e|] eqn:El.
  - exists (Some e). simpl. auto.
  - exists None. simpl. split; [auto|].
    destruct (post_outcome w _ _) as [e|]; simpl; auto.
Qed.

Lemma settled_row_fields v p :
  settled_row v p =
  {| id := id p; content := content p; scheduled_for := scheduled_for p;
     status := match v with None => Published | Some _ => Failed end;
     error := match v with
              | None => error p
              | Some e => Some (errorMessage e)
              end;
     created_at := created_at p; url := url p; image := image p |}.
Proof. now destruct v. Qed.

Lemma attempted_in_loop w before p after st events :
  NoDup (map id (before ++ p :: after)) ->
  lookup_post (id p) (db st) = Some p ->
  (forall e,
     In e (attempt w (credentials (db st)) p
             (trace (after_loop w before st))) ->
     In e events) ->
  attempted (credentials (db st)) p events
    (lookup_post (id p) (db (after_loop w (before ++ p :: after) st))).
Proof.
  intros Hnd Hl Hev.
  rewrite after_loop_lookup_member by exact Hnd. rewrite Hl. simpl.
  pose proof (attempt_and_verdict w p (after_loop w before st)) as H.
  rewrite (after_loop_credentials w before st) in H.
  exists (verdict w p (after_loop w before st)).
  split; [f_equal; apply settled_row_fields|].
  destruct (credentials (db st)) as [|c cs]; [exact H|].
  destruct H as [l [Hlogin Hpost]]. exists l. split; [now apply Hev|].
  destruct l; [exact Hpost | now apply Hev].
Qed.

(** Every due post gets its attempt, and its record says how it ended. *)
Lemma cron_attempted env w now st p :
  posts_pkey (db st) -> In p (posts (db st)) -> due now p ->
  let st' := snd (post_cron_check_posts env w now (Some (bearer env)) st) in
  attempted (credentials (db st)) p (new_events st st')
    (lookup_post (id p) (db st')).
Proof.
  intros Hk Hin Hdue st'. subst st'. rewrite cron_authorized. simpl.
  pose proof (select_due_posts_pkey now (db st) Hk) as Hnd.
  assert (Hb : In p (select_due_posts now (db st)))
    by now apply select_due_posts_In.
  destruct (in_split _ _ Hb) as [before [after E]].
  rewrite E in *.
  destruct (member_events w before p after (selected st)) as [d1 [d2 Ht]].
  assert (Hnew : trace (after_loop w (before ++ p :: after) (selected st))
                 = (trace st
                    ++ (Query SelectDuePosts :: d1)
                    ++ attempt w (credentials (db st)) p
                         (trace (after_loop w before (selected st)))
                    ++ d2)%list).
  { rewrite Ht. simpl. now rewrite <- app_assoc. }
  rewrite (new_events_app _ _ _ Hnew).
  apply (attempted_in_loop w before p after (selected st)).
  - exact Hnd.
  - simpl. now apply lookup_post_In.
  - intros e He. apply in_or_app. right. apply in_or_app. now left.
Qed.

(** C3, as stated, fails on the browser-side loop.  On the sample store,
    with credentials that are accepted and a network whose first post
    creation rejects with "Post failed", [checkScheduledPosts] makes that
    call for post 1 and then writes [status: published]: the record of post
    1 is not failed and carries no error. *)
Lemma checkScheduledPosts_publish_error_counterexample :
  let st := Sample.start Sample.store in
  let st' := snd (Scheduler.checkScheduledPosts Sample.flaky Sample.now st) in
  In Sample.hello (select_due_posts Sample.now (db st)) /\
  In (AgentPost 1 "hello" (Some (ErrorObj "Post failed"))) (trace st') /\
  lookup_post 1 (db st') =
  Some {| id := 1; content := "hello"; scheduled_for := 999;
          status := Published; error := None; created_at := 500;
          url := None; image := None |} /\
  ~ (exists r, lookup_post 1 (db st') = Some r /\
               status r = Failed /\ error r = Some "Post failed").
Proof.
  vm_compute. repeat split; auto.
  intros [r [Hr [Hs _]]]. injection Hr as <-. discriminate.
Qed.

(** C3, amended to the cron route.  Take a run of the cron loop and any
    post [p] of its batch, with [before] the posts selected ahead of it and
    [after] those behind.  If the [try] block of [p]'s iteration throws [e]
    (reading the credentials, logging in or publishing), then the iteration
    itself returns normally, [p]'s record becomes [p] with [status = failed]
    and with [e]'s message as [error] (the text "Unknown error" when [e] is
    not an [Error]), the loop goes on through [after] and the run ends with
    its success response; at the end [p]'s record is still that failed
    record, and every post of [after] has had its own attempt: its calls
    are in the trace and its record is published or failed accordingly. *)
Theorem cron_records_error_and_continues :
  forall env w now st before p after e,
    posts_pkey (db st) ->
    select_due_posts now (db st) = (before ++ p :: after)%list ->
    let st1 := after_loop w before (selected st) in
    fst (try_block w p st1) = inl e ->
    let st2 := snd (loop_body w p st1) in
    let final := snd (for_of after (loop_body w) st2) in
    let failed :=
      {| id := id p; content := content p; scheduled_for := scheduled_for p;
         status := Failed; error := Some (errorMessage e);
         created_at := created_at p; url := url p; image := image p |} in
    fst (loop_body w p st1) = inr tt /\
    lookup_post (id p) (db st2) = Some failed /\
    post_cron_check_posts env w now (Some (bearer env)) st =
    (inr (res_json JsonSuccess), final) /\
    lookup_post (id p) (db final) = Some failed /\
    forall q, In q after ->
      attempted (credentials (db st)) q (new_events st final)
        (lookup_post (id q) (db final)).
Proof.
  intros env w now st before p after e Hk Hbatch st1 Hthrow st2 final failed.
  subst final. fold (after_iteration w p st1) in st2.
  fold (after_loop w after st2).
  pose proof (select_due_posts_pkey now (db st) Hk) as Hnd.
  rewrite Hbatch in Hnd.
  assert (Hmem : forall q, In q (before ++ p :: after) ->
                           In q (posts (db st)) /\ due now q).
  { intros q Hq. rewrite <- Hbatch in Hq.
    now apply select_due_posts_In in Hq. }
  assert (Hfinal : after_loop w (before ++ p :: after) (selected st) =
                   after_loop w after st2).
  { now rewrite after_loop_app, after_loop_cons. }
  assert (Hrun : post_cron_check_posts env w now (Some (bearer env)) st =
                 (inr (res_json JsonSuccess), after_loop w after st2)).
  { rewrite cron_authorized, Hbatch, Hfinal. reflexivity. }
  assert (Hp : lookup_post (id p) (db (after_loop w after st2)) = Some failed).
  { rewrite <- Hfinal, after_loop_lookup_member by exact Hnd.
    fold st1. rewrite (verdict_thrown w p st1 e Hthrow). simpl.
    rewrite (lookup_post_In (db st) p Hk); [reflexivity|].
    apply Hmem, in_elt. }
  repeat split.
  - now rewrite loop_body_eq.
  - rewrite map_app in Hnd. simpl in Hnd.
    pose proof (NoDup_remove_2 _ _ _ Hnd) as Hnotin.
    rewrite <- Hp. symmetry. apply after_loop_lookup_other.
    intro. apply Hnotin, in_or_app. auto.
  - exact Hrun.
  - exact Hp.
  - intros q Hq.
    assert (Hq' : In q (before ++ p :: after))
      by (apply in_or_app; right; now right).
    destruct (Hmem q Hq') as [Hqin Hqdue].
    pose proof (cron_attempted env w now st q Hk Hqin Hqdue) as H.
    simpl in H. rewrite Hrun in H. exact H.
Qed.

Lemma cron_records_error_and_continues_witness :
  lookup_post 1
    (db (snd (post_cron_check_posts Sample.env Sample.flaky Sample.now
                (Some "Bearer s3cret") (Sample.start Sample.store)))) =
  Some {| id := 1; content := "hello"; scheduled_for := 999;
          status := Failed; error := Some "Post failed"; created_at := 500;
          url := None; image := None |}
  /\ attempted [Sample.account] Sample.second
       (new_events (Sample.start Sample.store)
          (snd (post_cron_check_posts Sample.env Sample.flaky Sample.now
                  (Some "Bearer s3cret") (Sample.start Sample.store))))
       (lookup_post 4
          (db (snd (post_cron_check_posts Sample.env Sample.flaky Sample.now
                      (Some "Bearer s3cret") (Sample.start Sample.store))))).
Proof.
  destruct (cron_records_error_and_continues
              Sample.env Sample.flaky Sample.now (Sample.start Sample.store)
              [] Sample.hello [Sample.second] (ErrorObj "Post failed")
              sample_store_pkey eq_refl eq_refl)
    as [_ [_ [Hrun [Hp Hafter]]]].
  change (bearer Sample.env) with "Bearer s3cret" in Hrun.
  rewrite Hrun. split.
  - exact Hp.
  - apply (Hafter Sample.second). simpl. auto.
Defined.

(** C4, as stated, fails: with one login refusal per due post, the records
    of the due posts are rewritten.  On the sample store and a network that
    refuses every login, the batch is not empty, the stored credentials are
    refused, and it is not the case that no publish call is made and no post
    record is modified: post 1 ends as failed. *)
Lemma cron_login_refused_counterexample :
  let st := Sample.start Sample.store in
  let st' := snd (post_cron_check_posts Sample.env Sample.rejecting
                    Sample.now (Some "Bearer s3cret") st) in
  select_due_posts Sample.now (db st) <> [] /\
  hd_error (credentials (db st)) = Some Sample.account /\
  refused Sample.rejecting Sample.account /\
  count is_login (new_events st st') = 2%nat /\
  lookup_post 1 (db st') =
  Some (set_status_error Failed "Invalid identifier or password"
          Sample.hello) /\
  ~ (count is_publish (new_events st st') = 0%nat /\ no_post_modified st st').
Proof.
  repeat split; try discriminate.
  intros [_ H]. specialize (H Sample.hello (or_introl eq_refl)).
  vm_compute in H. discriminate.
Qed.

(** C4, amended.  When the network refuses the stored credentials at every
    login, a run of the cron loop makes no publish call, is not cut short
    (it logs in once for each due post), marks every due post failed with
    the message of the error its own login was refused with, and leaves the
    record of every other post as it was. *)
Theorem cron_login_refused_fails_each_due_post :
  forall env w now st c,
    posts_pkey (db st) ->
    hd_error (credentials (db st)) = Some c ->
    refused w c ->
    let st' := snd (post_cron_check_posts env w now (Some (bearer env)) st) in
    count is_publish (new_events st st') = 0%nat /\
    count is_login (new_events st st') =
    List.length (select_due_posts now (db st)) /\
    (forall p, In p (posts (db st)) -> due now p ->
       exists e,
         In (AgentLogin (id p) (identifier c) (password c) (Some e))
            (new_events st st') /\
         lookup_post (id p) (db st') =
         Some (set_status_error Failed (errorMessage e) p)) /\
    (forall p, In p (posts (db st)) -> not_due now p ->
       lookup_post (id p) (db st') = Some p).
Proof.
  intros env w now st c Hk Hc Hr st'. subst st'.
  rewrite cron_authorized. simpl.
  set (batch := select_due_posts now (db st)).
  destruct (count_refused w batch (selected st) c Hc Hr) as [Hp Hl].
  repeat split.
  - rewrite count_new_events by apply selected_extends.
    rewrite Hp, count_selected by reflexivity. lia.
  - rewrite count_new_events by apply selected_extends.
    rewrite Hl, count_selected by reflexivity. lia.
  - intros p Hin Hdue.
    pose proof (select_due_posts_pkey now (db st) Hk) as Hnd.
    assert (Hb : In p batch) by now apply select_due_posts_In.
    destruct (in_split _ _ Hb) as [before [after E]].
    fold batch in Hnd. rewrite E in *.
    destruct (verdict_refused w p (after_loop w before (selected st)) c)
      as [e [Hv Ha]]; [now rewrite after_loop_credentials | exact Hr |].
    exists e. split.
    + destruct (member_events w before p after (selected st))
        as [d1 [d2 Ht]].
      rewrite after_loop_credentials in Ha. rewrite Ha in Ht.
      assert (Hnew : trace (after_loop w (before ++ p :: after) (selected st))
                     = (trace st
                        ++ (Query SelectDuePosts :: d1)
                        ++ [Query SelectCredentials;
                            AgentLogin (id p) (identifier c) (password c)
                                       (Some e)]
                        ++ d2)%list).
      { rewrite Ht. simpl. now rewrite <- app_assoc. }
      rewrite (new_events_app _ _ _ Hnew).
      apply in_or_app. right. apply in_or_app. left. simpl. auto.
    + rewrite after_loop_lookup_member by exact Hnd.
      rewrite Hv. simpl. now rewrite (lookup_post_In (db st) p Hk Hin).
  - intros p Hin Hnot.
    rewrite after_loop_lookup_other
      by now apply not_due_id_not_in_batch.
    simpl. now apply lookup_post_In.
Qed.

Lemma cron_login_refused_fails_each_due_post_witness :
  count is_publish
    (new_events (Sample.start Sample.store)
       (snd (post_cron_check_posts Sample.env Sample.rejecting Sample.now
               (Some "Bearer s3cret") (Sample.start Sample.store)))) = 0%nat
  /\ lookup_post 2
       (db (snd (post_cron_check_posts Sample.env Sample.rejecting Sample.now
                   (Some "Bearer s3cret") (Sample.start Sample.store)))) =
     Some Sample.later.
Proof.
  assert (Hr : refused Sample.rejecting Sample.account)
    by (intro; discriminate).
  destruct (cron_login_refused_fails_each_due_post
              Sample.env Sample.rejecting Sample.now
              (Sample.start Sample.store) Sample.account
              sample_store_pkey eq_refl Hr)
    as [Hpub [_ [_ Hnot]]].
  split.
  - exact Hpub.
  - apply (Hnot Sample.later).
    + simpl. auto.
    + right. right. reflexivity.
Defined.

(** C5.  With a configured secret, a request to the cron route whose
    [Authorization] header is missing or is not ["Bearer " ++ secret] is
    answered 401 and sends no statement to the store (the state, trace
    included, is the one before).  A request with the matching header is
    answered with the success body, and the state that comes with that
    answer already holds the attempt of every post that was due: the one
    write of its iteration, the login made for it with the stored
    credentials, the post creation made for it with its content when the
    login was accepted, and its record, published when the post creation
    resolved and failed with the message of the error otherwise. *)
Theorem cron_requires_bearer_secret :
  forall env secret w now st,
    CRON_SECRET env = Some secret ->
    (forall authHeader,
       authHeader <> Some ("Bearer " ++ secret) ->
       let (res, st') := post_cron_check_posts env w now authHeader st in
       res = inr {| status_code := 401; body := JsonError "Unauthorized" |} /\
       st' = st /\
       count is_query (new_events st st') = 0%nat) /\
    (posts_pkey (db st) ->
     let (res, st') :=
       post_cron_check_posts env w now (Some ("Bearer " ++ secret)) st in
     res = inr {| status_code := 200; body := JsonSuccess |} /\
     forall p, In p (posts (db st)) -> due now p ->
       count (is_write_to (id p)) (new_events st st') = 1%nat /\
       attempted (credentials (db st)) p (new_events st st')
         (lookup_post (id p) (db st'))).
Proof.
  intros env secret w now st Hsecret.
  assert (Hb : bearer env = "Bearer " ++ secret)
    by (unfold bearer; now rewrite Hsecret).
  split.
  - intros authHeader Hne. rewrite <- Hb in Hne.
    rewrite (cron_unauthorized env w now authHeader st Hne).
    repeat split; eauto.
    unfold new_events. now rewrite skipn_all.
  - intro Hk. rewrite <- Hb.
    destruct (post_cron_check_posts env w now (Some (bearer env)) st)
      as [res st'] eqn:E.
    split.
    + rewrite cron_authorized in E. now inversion E.
    + intros p Hin Hdue.
      pose proof (cron_attempts_every_due_post env w now st p Hk Hin Hdue)
        as H.
      pose proof (cron_attempted env w now st p Hk Hin Hdue) as H'.
      simpl in H, H'. rewrite E in H, H'. simpl in H, H'.
      split; [exact (proj1 H) | exact H'].
Qed.

Lemma cron_requires_bearer_secret_witness :
  (let (res, st') :=
     post_cron_check_posts Sample.env Sample.friendly Sample.now None
       (Sample.start Sample.store) in
   res = inr {| status_code := 401; body := JsonError "Unauthorized" |} /\
   st' = Sample.start Sample.store /\
   count is_query (new_events (Sample.start Sample.store) st') = 0%nat)
  /\
  (let (res, st') :=
     post_cron_check_posts Sample.env Sample.friendly Sample.now
       (Some "Bearer s3cret") (Sample.start Sample.store) in
   res = inr {| status_code := 200; body := JsonSuccess |} /\
   forall p, In p (posts Sample.store) -> due Sample.now p ->
     count (is_write_to (id p)) (new_events (Sample.start Sample.store) st')
     = 1%nat /\
     attempted [Sample.account] p
       (new_events (Sample.start Sample.store) st')
       (lookup_post (id p) (db st'))).
Proof.
  destruct (cron_requires_bearer_secret
              Sample.env "s3cret" Sample.friendly Sample.now
              (Sample.start Sample.store) eq_refl) as [Hno Hyes].
  split.
  - apply (Hno None). discriminate.
  - apply Hyes. exact sample_store_pkey.
Defined.

(** ** Creating and listing posts *)

(** What [createPost] followed by [getAllPosts] gives, through a transport
    that reaches the server: the row is new, pending, and carries the
    draft's content, schedule and image; its [url] is [NULL] whatever the
    draft says. *)
Lemma createPost_getAllPosts env1 w1 now1 env2 w2 now2 draft st :
  let (created, st1) :=
    RemoteDB.createPost (RemoteDB.online env1 w1 now1) draft st in
  let (listed, st2) :=
    RemoteDB.getAllPosts (RemoteDB.online env2 w2 now2) st1 in
  exists row,
    created = inr (JsonPost row) /\
    listed = inr (JsonPosts (posts (db st) ++ [row])) /\
    id row = posts_id_seq (db st) /\
    created_at row = now1 /\
    status row = Pending /\
    content row = Types.content draft /\
    scheduled_for row = Types.scheduledFor draft /\
    image row = Types.image draft /\
    url row = None.
Proof.
  unfold RemoteDB.createPost, RemoteDB.getAllPosts, RemoteDB.fetchApi,
    RemoteDB.online, app, post_posts, get_posts, query, bind, ret.
  simpl. eexists. repeat split.
Qed.

(** C6.  The round trip on a draft that carries a link: [createPost] then
    [getAllPosts], on any store and through a transport that reaches the
    server, return a post with the draft's content and schedule, a new id,
    the creation time and [status = pending], but without the draft's
    [url]: the listed post has none. *)
Theorem createPost_loses_url :
  forall env w now st,
    let draft := Sample.draft_with_link in
    let (created, st1) :=
      RemoteDB.createPost (RemoteDB.online env w now) draft st in
    let (listed, st2) :=
      RemoteDB.getAllPosts (RemoteDB.online env w now) st1 in
    exists row,
      listed = inr (JsonPosts (posts (db st) ++ [row])) /\
      content row = "check this" /\
      scheduled_for row = 2000 /\
      status row = Pending /\
      Types.url draft = Some "https://x.test" /\
      url row = None.
Proof.
  intros env w now st draft.
  pose proof (createPost_getAllPosts env w now env w now draft st) as H.
  destruct (RemoteDB.createPost (RemoteDB.online env w now) draft st)
    as [created st1].
  destruct (RemoteDB.getAllPosts (RemoteDB.online env w now) st1)
    as [listed st2].
  destruct H as [row [_ [Hl [_ [_ [Hs [Hc [Ht [_ Hu]]]]]]]]].
  exists row. repeat split; assumption.
Qed.

(** ** The payload builder *)

(** C7.  For every draft with both [url] and [image] set, and credentials
    at hand, the payload built by [getPostData] has a link-card embed and no
    image embed; the card is the resolver's answer for the url, or the card
    made of the url alone when the resolver fails. *)
Theorem getPostData_url_wins :
  forall (Facet : Type) (detectFacets : string -> list Facet)
         (toISOString : Z -> string)
         (fetchUrlMetadata : string -> Creds -> Thrown + Bluesky.External)
         (c : Creds) (d : Bluesky.PostDraft) (u : string) (i : Image),
    Bluesky.url d = Some u ->
    Bluesky.image d = Some i ->
    exists payload,
      Bluesky.getPostData detectFacets toISOString fetchUrlMetadata
        (Some c) d = inr payload /\
      Bluesky.has_link_embed payload /\
      ~ Bluesky.has_image_embed payload /\
      Bluesky.embed payload =
      Some (Bluesky.EmbedExternal
              match fetchUrlMetadata u c with
              | inr card => card
              | inl _ =>
                  {| Bluesky.uri := u; Bluesky.title := u;
                     Bluesky.description := EmptyString;
                     Bluesky.thumb := None;
                     Bluesky.localImageRef := None |}
              end).
Proof.
  intros Facet detectFacets toISOString fetchUrlMetadata c d u i Hu Hi.
  unfold Bluesky.getPostData. rewrite Hu.
  eexists. split; [reflexivity|]. split; [|split].
  - unfold Bluesky.has_link_embed. simpl. eauto.
  - unfold Bluesky.has_image_embed. simpl. intros [images H]. discriminate.
  - reflexivity.
Qed.

Lemma getPostData_url_wins_witness :
  exists payload,
    Bluesky.getPostData Sample.no_facets Sample.iso Sample.resolver
      (Some Sample.login) Sample.both = inr payload /\
    Bluesky.has_link_embed payload /\
    ~ Bluesky.has_image_embed payload /\
    Bluesky.embed payload = Some (Bluesky.EmbedExternal Sample.card).
Proof.
  apply (getPostData_url_wins unit Sample.no_facets Sample.iso
           Sample.resolver Sample.login Sample.both
           "https://example.com" Sample.picture eq_refl eq_refl).
Defined.

(** ** Credentials *)




(** ** Reading the credentials through the client *)

Lemma getCredentials_cases fetch st :
  RemoteDB.getCredentials fetch st =
  match fetch GET_credentials st with
  | (RemoteDB.Rejects _, st') => (inr None, st')
  | (RemoteDB.Resolves response, st') =>
      if RemoteDB.ok response then
        match RemoteDB.json response with
        | inr b => (inr (Some b), st')
        | inl _ => (inr None, st')
        end
      else (inr None, st')
  end.
Proof.
  unfold RemoteDB.getCredentials, RemoteDB.fetchApi, try_catch, bind, ret.
  destruct (fetch GET_credentials st) as [[e | response] st']; simpl.
  - reflexivity.
  - destruct (RemoteDB.ok response); simpl; [|reflexivity].
    now destruct (RemoteDB.json response).
Qed.

(** C10.  [getCredentials] of the remote store never throws: it returns a
    value or [null].  It returns [null] when the request fails in transport,
    when the response is not OK, and also when the server is reached and
    its credentials table is empty, so that [null] does not tell the three
    apart. *)
Theorem getCredentials_null_on_failure :
  (forall fetch st, exists r, fst (RemoteDB.getCredentials fetch st) = inr r)
  /\
  (forall fetch st e st',
     fetch GET_credentials st = (RemoteDB.Rejects e, st') ->
     RemoteDB.getCredentials fetch st = (inr None, st'))
  /\
  (forall fetch st response st',
     fetch GET_credentials st = (RemoteDB.Resolves response, st') ->
     RemoteDB.ok response = false ->
     RemoteDB.getCredentials fetch st = (inr None, st'))
  /\
  (forall env w now st,
     credentials (db st) = [] ->
     fst (RemoteDB.getCredentials (RemoteDB.online env w now) st) = inr None).
Proof.
  repeat split.
  - intros fetch st. rewrite getCredentials_cases.
    destruct (fetch GET_credentials st) as [[e | response] st']; simpl;
      [eauto|].
    destruct (RemoteDB.ok response); [|simpl; eauto].
    destruct (RemoteDB.json response); simpl; eauto.
  - intros fetch st e st' H. now rewrite getCredentials_cases, H.
  - intros fetch st response st' H Hok.
    now rewrite getCredentials_cases, H, Hok.
  - intros env w now st Hc. rewrite getCredentials_cases.
    unfold RemoteDB.online, app, get_credentials, query, bind, ret,
      select_credentials_limit_1.
    simpl. rewrite Hc. reflexivity.
Qed.

Lemma getCredentials_null_on_failure_witness :
  RemoteDB.getCredentials Sample.offline (Sample.start Sample.store) =
  (inr None, Sample.start Sample.store)
  /\
  fst (RemoteDB.getCredentials
         (RemoteDB.online Sample.env Sample.friendly Sample.now)
         (Sample.start Sample.store_without_credentials)) = inr None.
Proof.
  destruct getCredentials_null_on_failure as [_ [Hreject [_ Hempty]]].
  split.
  - apply (Hreject Sample.offline (Sample.start Sample.store)
             (ErrorObj "Failed to fetch")).
    reflexivity.
  - apply Hempty. reflexivity.
Defined.

(** ** Store states the server can reach *)

Lemma seq_ahead_ids d :
  seq_ahead d <-> Forall (fun i => i < posts_id_seq d) (map id (posts d)).
Proof. unfold seq_ahead. now rewrite Forall_map. Qed.

Lemma lookup_post_insert now c t s img d post_id r :
  lookup_post post_id d = Some r ->
  lookup_post post_id (snd (insert_post now c t s img d)) = Some r.
Proof.
  unfold lookup_post. simpl.
  induction (posts d) as [|a l IH]; simpl; [discriminate|].
  destruct (id a =? post_id); auto.
Qed.

Lemma insert_post_keeps_key now c t s img d :
  posts_pkey d -> seq_ahead d ->
  posts_pkey (snd (insert_post now c t s img d)) /\
  seq_ahead (snd (insert_post now c t s img d)).
Proof.
  unfold posts_pkey, seq_ahead. simpl. intros Hk Ha. split.
  - rewrite map_app. apply NoDup_app; auto.
    + simpl. repeat constructor. intros [].
    + simpl. intros i Hi [E | []]. subst i.
      apply in_map_iff in Hi. destruct Hi as [r [E Hr]].
      rewrite Forall_forall in Ha. specialize (Ha r Hr). lia.
  - apply Forall_app. split.
    + eapply Forall_impl; [|exact Ha]. simpl. intros. lia.
    + repeat constructor. simpl. lia.
Qed.

Lemma delete_post_keeps_key post_id d :
  posts_pkey d -> seq_ahead d ->
  posts_pkey (delete_post post_id d) /\ seq_ahead (delete_post post_id d).
Proof.
  unfold posts_pkey, seq_ahead. simpl. intros Hk Ha. split.
  - now apply filter_keeps_pkey.
  - rewrite Forall_forall in *. intros r Hr.
    apply filter_In in Hr. now apply Ha.
Qed.

Lemma after_loop_keeps_key w batch st :
  posts_pkey (db st) -> seq_ahead (db st) ->
  posts_pkey (db (after_loop w batch st)) /\
  seq_ahead (db (after_loop w batch st)).
Proof.
  intros Hk Ha. split.
  - unfold posts_pkey. now rewrite after_loop_ids.
  - apply seq_ahead_ids. rewrite after_loop_ids, after_loop_seq.
    now apply seq_ahead_ids.
Qed.

(** What a request leaves of the posts table. *)
Lemma app_posts env w now req st :
  let st' := snd (app env w now req st) in
  match req with
  | POST_posts b =>
      db st' =
      snd (insert_post now (Types.content b) (Types.scheduledFor b) Pending
             (Types.image b) (db st))
  | DELETE_posts_id i => db st' = delete_post i (db st)
  | POST_cron_check_posts a =>
      st' = st \/
      st' = after_loop w (select_due_posts now (db st)) (selected st)
  | _ =>
      posts (db st') = posts (db st) /\
      posts_id_seq (db st') = posts_id_seq (db st)
  end.
Proof.
  destruct req; simpl; try (split; reflexivity); try reflexivity.
  destruct (strict_neq authorization (bearer env)) eqn:E.
  - left. apply strict_neq_true in E. now rewrite cron_unauthorized.
  - right. apply strict_neq_false in E. subst. now rewrite cron_authorized.
Qed.

Lemma app_keeps_key env w now req st :
  posts_pkey (db st) -> seq_ahead (db st) ->
  posts_pkey (db (snd (app env w now req st))) /\
  seq_ahead (db (snd (app env w now req st))).
Proof.
  intros Hk Ha. pose proof (app_posts env w now req st) as H. simpl in H.
  assert (Hsame : posts (db (snd (app env w now req st))) = posts (db st) /\
                  posts_id_seq (db (snd (app env w now req st))) =
                  posts_id_seq (db st) ->
                  posts_pkey (db (snd (app env w now req st))) /\
                  seq_ahead (db (snd (app env w now req st)))).
  { intros [Hp Hs]. unfold posts_pkey, seq_ahead. rewrite Hp, Hs.
    now split. }
  destruct req; try (apply Hsame; exact H).
  - rewrite H. now apply insert_post_keeps_key.
  - rewrite H. now apply delete_post_keeps_key.
  - destruct H as [-> | ->]; [now split|].
    now apply after_loop_keeps_key.
Qed.

Lemma serially_reachable_key d : serially_reachable d -> posts_pkey d /\ seq_ahead d.
Proof.
  induction 1 as [|env w now req d tr Hr [Hk Ha]].
  - split; constructor.
  - now apply app_keeps_key.
Qed.

Lemma legal_transition_terminal a b :
  legal_transition a b -> a = Published \/ a = Failed -> b = a.
Proof.
  intros [E | [E _]] H; [exact E|]. destruct H; congruence.
Qed.

(** C8, amended to a server that takes one request at a time.  In a
    store state reached from the empty tables by requests each handled to
    its response before the next starts, whatever request is handled next:
    a post that is still in the table afterwards has either the status it
    had or, if it was pending, the status published or failed.  So no
    request changes the status of a published or failed post.
    ([PATCH /api/posts/:id], the request sent by [updatePost], is one of
    the requests: the server has no route for it.) *)
Theorem terminal_status_is_never_changed :
  forall d,
    serially_reachable d ->
    forall env w now req tr r r',
      let d' := db (snd (app env w now req {| db := d; trace := tr |})) in
      In r (posts d) -> In r' (posts d') -> id r' = id r ->
      legal_transition (status r) (status r') /\
      (status r = Published \/ status r = Failed -> status r' = status r).
Proof.
  intros d Hd env w now req tr r r' d' Hr Hr' Hid.
  assert (Hlegal : legal_transition (status r) (status r'));
    [|split; [exact Hlegal | now apply legal_transition_terminal]].
  destruct (serially_reachable_key d Hd) as [Hk Ha].
  assert (Hd' : serially_reachable d') by now constructor.
  destruct (serially_reachable_key d' Hd') as [Hk' _].
  pose proof (lookup_post_In d r Hk Hr) as Hl.
  pose proof (lookup_post_In d' r' Hk' Hr') as Hl'. rewrite Hid in Hl'.
  pose proof (app_posts env w now req {| db := d; trace := tr |}) as H.
  cbv zeta in H. change (db {| db := d; trace := tr |}) with d in H.
  fold d' in H.
  assert (Hsame : posts d' = posts d -> legal_transition (status r) (status r')).
  { intro E. unfold lookup_post in Hl'. rewrite E in Hl'.
    fold (lookup_post (id r) d) in Hl'. left. congruence. }
  destruct req; try (apply Hsame; tauto).
  - (* POST /api/posts *)
    rewrite H in Hl'. rewrite (lookup_post_insert _ _ _ _ _ _ _ _ Hl) in Hl'.
    left. congruence.
  - (* DELETE /api/posts/:id *)
    rewrite H in Hr'. simpl in Hr'. apply filter_In in Hr'.
    destruct Hr' as [Hr' _].
    left. f_equal. exact (pkey_injective d r' r Hk Hr' Hr Hid).
  - (* POST /api/cron/check-posts *)
    destruct H as [E | E].
    + apply Hsame. unfold d'. now rewrite E.
    + unfold d' in Hl'. rewrite E in Hl'.
      set (batch := select_due_posts now d) in *.
      destruct (in_dec Z.eq_dec (id r) (map id batch)) as [Hin | Hout].
      * apply in_map_iff in Hin. destruct Hin as [q [Eq Hq]].
        pose proof Hq as Hq'. apply select_due_posts_In in Hq'.
        destruct Hq' as [Hqd [Hpending _]].
        assert (q = r) by exact (pkey_injective d q r Hk Hqd Hr Eq).
        subst q.
        destruct (after_loop_member w batch
                    (selected {| db := d; trace := tr |}) r
                    (select_due_posts_pkey now d Hk) Hq)
          as [b [a [_ Hm]]].
        rewrite Hm in Hl'. simpl in Hl'. rewrite Hl in Hl'. simpl in Hl'.
        injection Hl' as <-. right. split; [exact Hpending|].
        apply settled_row_status.
      * rewrite after_loop_lookup_other in Hl' by exact Hout.
        simpl in Hl'. left. congruence.
Qed.


Lemma sample_published_store_reachable : serially_reachable Sample.published_store.
Proof.
  apply (@serial_step Sample.env Sample.friendly 3000
           (POST_cron_check_posts (Some "Bearer s3cret"))
           Sample.one_post_and_account []).
  apply (@serial_step Sample.env Sample.friendly 600
           (POST_credentials Sample.login) Sample.one_post []).
  apply (@serial_step Sample.env Sample.friendly 500
           (POST_posts Sample.draft_with_link) initDB []).
  apply serial_init.
Defined.

Lemma terminal_status_is_never_changed_witness :
  (legal_transition (status Scenario.waiting) (status Sample.delivered) /\
   (status Scenario.waiting = Published \/ status Scenario.waiting = Failed ->
    status Sample.delivered = status Scenario.waiting))
  /\
  (legal_transition (status Sample.delivered) (status Sample.delivered) /\
   (status Sample.delivered = Published \/ status Sample.delivered = Failed ->
    status Sample.delivered = status Sample.delivered)).
Proof.
  split.
  - (* pending, then published by a cron run *)
    apply (terminal_status_is_never_changed
             Sample.one_post_and_account
             (serial_step Sample.env Sample.friendly 600
                (POST_credentials Sample.login) []
                (serial_step Sample.env Sample.friendly 500
                   (POST_posts Sample.draft_with_link) [] serial_init))
             Sample.env Sample.friendly 3000
             (POST_cron_check_posts (Some "Bearer s3cret")) []
             Scenario.waiting Sample.delivered).
    + left. reflexivity.
    + left. reflexivity.
    + reflexivity.
  - (* published, and a later cron run against a refusing network *)
    apply (terminal_status_is_never_changed
             Sample.published_store sample_published_store_reachable
             Sample.env Sample.rejecting 4000
             (POST_cron_check_posts (Some "Bearer s3cret")) []
             Sample.delivered Sample.delivered).
    + left. reflexivity.
    + left. reflexivity.
    + reflexivity.
Defined.

(** The handler of an authorised cron request is its two parts, one after
    the other. *)
Lemma cron_select_then_loop env w now st :
  post_cron_check_posts env w now (Some (bearer env)) st =
  let (batch, st1) := cron_select now st in cron_loop w batch st1.
Proof.
  unfold post_cron_check_posts. fold (bearer env).
  rewrite (proj2 (strict_neq_false _ _) eq_refl). reflexivity.
Qed.

(** C8, as stated, fails when two cron requests overlap.  The store holds
    one pending, due post and credentials, and is reached by requests taken
    one at a time; two authorised cron requests arrive, and both SELECTs are
    answered before either handler writes.  The network accepts the first
    login and refuses the second.  The first handler publishes the post and
    marks it published; the second handler, which selected the post while
    it was pending, then marks the same post failed: a published post has
    its status changed. *)
Lemma overlapping_cron_runs_counterexample :
  serially_reachable Sample.one_post_and_account /\
  let (between, final) :=
    overlapping_cron_runs Scenario.expiring 3000 3000
      (Sample.start Sample.one_post_and_account) in
  lookup_post 1 (db between) =
  Some {| id := 1; content := "check this"; scheduled_for := 2000;
          status := Published; error := None; created_at := 500;
          url := None; image := None |} /\
  lookup_post 1 (db final) =
  Some {| id := 1; content := "check this"; scheduled_for := 2000;
          status := Failed; error := Some "Rate Limit Exceeded";
          created_at := 500; url := None; image := None |}.
Proof.
  split.
  - apply (serial_step Sample.env Sample.friendly 600
             (POST_credentials Sample.login) []).
    apply (serial_step Sample.env Sample.friendly 500
             (POST_posts Sample.draft_with_link) []).
    apply serial_init.
  - vm_compute. split; reflexivity.
Qed.

(* ================================================================== *)
(** * Further properties of the routes and of the client                *)
(* ================================================================== *)

(** ** The cron route, whatever the header *)

Lemma cron_cases env w now authHeader st :
  post_cron_check_posts env w now authHeader st =
  (inr (res_status_json 401 (JsonError "Unauthorized")), st)
  \/
  (authHeader = Some (bearer env) /\
   post_cron_check_posts env w now authHeader st =
   (inr (res_json JsonSuccess),
    after_loop w (select_due_posts now (db st)) (selected st))).
Proof.
  destruct (strict_neq authHeader (bearer env)) eqn:E.
  - left. apply strict_neq_true in E. now apply cron_unauthorized.
  - right. apply strict_neq_false in E. subst. split; [reflexivity|].
    apply cron_authorized.
Qed.

Lemma new_events_same st : new_events st st = [].
Proof. unfold new_events. apply skipn_all. Qed.

Lemma cron_keeps_pkey env w now authHeader st :
  posts_pkey (db st) ->
  posts_pkey (db (snd (post_cron_check_posts env w now authHeader st))).
Proof.
  intro Hk.
  destruct (cron_cases env w now authHeader st) as [-> | [_ ->]];
    [exact Hk|].
  unfold posts_pkey. simpl. now rewrite after_loop_ids.
Qed.

(** The frame of a run: what is not due is not touched. *)
Lemma cron_frame :
  forall env w now authHeader st p,
    posts_pkey (db st) ->
    In p (posts (db st)) ->
    not_due now p ->
    let st' := snd (post_cron_check_posts env w now authHeader st) in
    count (is_publish_for (id p)) (new_events st st') = 0%nat /\
    count (is_write_to (id p)) (new_events st st') = 0%nat /\
    lookup_post (id p) (db st') = Some p.
Proof.
  intros env w now authHeader st p Hk Hin Hnot st'. subst st'.
  destruct (cron_cases env w now authHeader st) as [-> | [_ ->]]; simpl.
  - rewrite new_events_same. repeat split. now apply lookup_post_In.
  - pose proof (not_due_id_not_in_batch now (db st) p Hk Hin Hnot) as Hid.
    pose proof (proj1 (count_occ_not_In Z.eq_dec _ _) Hid) as H0.
    repeat split.
    + rewrite count_new_events by apply selected_extends.
      pose proof (count_publish_le w (select_due_posts now (db st))
                    (selected st) (id p)) as Hle.
      rewrite count_selected in Hle by reflexivity. lia.
    + rewrite count_new_events by apply selected_extends.
      rewrite count_writes, count_selected by reflexivity. lia.
    + rewrite after_loop_lookup_other by exact Hid.
      simpl. now apply lookup_post_In.
Qed.

(** X1.  A run of the cron route, whatever its header, whatever the
    credentials table holds and whatever the network answers, makes no
    publish call for a post that is not due, sends no write to it and leaves
    its record as it was. *)
Theorem cron_never_touches_a_post_not_due :
  forall env w now authHeader st p,
    posts_pkey (db st) ->
    In p (posts (db st)) ->
    not_due now p ->
    let st' := snd (post_cron_check_posts env w now authHeader st) in
    count (is_publish_for (id p)) (new_events st st') = 0%nat /\
    count (is_write_to (id p)) (new_events st st') = 0%nat /\
    lookup_post (id p) (db st') = Some p.
Proof. exact cron_frame. Qed.

Lemma cron_never_touches_a_post_not_due_witness :
  count (is_write_to 2)
    (new_events (Sample.start Sample.store)
       (snd (post_cron_check_posts Sample.env Sample.flaky Sample.now
               (Some "Bearer s3cret") (Sample.start Sample.store))))
  = 0%nat.
Proof.
  apply (cron_never_touches_a_post_not_due
           Sample.env Sample.flaky Sample.now (Some "Bearer s3cret")
           (Sample.start Sample.store) Sample.later sample_store_pkey).
  - simpl. auto.
  - right. right. reflexivity.
Defined.

(** X2.  Two runs of the cron route, one after the other: a post that was
    due in the first run is settled there, and the second run, at any time,
    with any header and against any network, makes no publish call for it,
    sends no write to it and leaves its record as the first run left it. *)
Theorem cron_delivers_at_most_once :
  forall env w now st env' w' now' authHeader' p,
    posts_pkey (db st) ->
    In p (posts (db st)) ->
    due now p ->
    let st1 := snd (post_cron_check_posts env w now (Some (bearer env)) st) in
    let st2 := snd (post_cron_check_posts env' w' now' authHeader' st1) in
    count (is_publish_for (id p)) (new_events st1 st2) = 0%nat /\
    count (is_write_to (id p)) (new_events st1 st2) = 0%nat /\
    lookup_post (id p) (db st2) = lookup_post (id p) (db st1).
Proof.
  intros env w now st env' w' now' authHeader' p Hk Hin Hdue st1 st2.
  destruct (cron_attempts_every_due_post env w now st p Hk Hin Hdue)
    as [_ [v Hv]].
  fold st1 in Hv.
  assert (Hk1 : posts_pkey (db st1)) by now apply cron_keeps_pkey.
  destruct (lookup_post_Some _ _ _ Hv) as [Hin1 Hid1].
  assert (Hnot : not_due now' (settled_row v p)).
  { destruct (settled_row_status v p) as [H | H];
      [left | right; left]; exact H. }
  destruct (cron_frame
              env' w' now' authHeader' st1 (settled_row v p) Hk1 Hin1 Hnot)
    as [Hp [Hw Hl]].
  rewrite Hid1 in *. fold st2 in Hp, Hw, Hl.
  repeat split; try assumption. congruence.
Qed.

Lemma cron_delivers_at_most_once_witness :
  count (is_publish_for 1)
    (new_events
       (snd (post_cron_check_posts Sample.env Sample.friendly Sample.now
               (Some "Bearer s3cret") (Sample.start Sample.store)))
       (snd (post_cron_check_posts Sample.env Sample.friendly 5000
               (Some "Bearer s3cret")
               (snd (post_cron_check_posts Sample.env Sample.friendly
                       Sample.now (Some "Bearer s3cret")
                       (Sample.start Sample.store))))))
  = 0%nat.
Proof.
  apply (cron_delivers_at_most_once
           Sample.env Sample.friendly Sample.now (Sample.start Sample.store)
           Sample.env Sample.friendly 5000 (Some "Bearer s3cret")
           Sample.hello sample_store_pkey).
  - simpl. auto.
  - split; [reflexivity | discriminate].
Defined.

(** X3.  A run of the cron route that finds nothing due reads the posts
    table once and does nothing else: the credentials are not read, the
    network is not called, the store is as before, and the answer is the
    success body. *)
Theorem cron_with_nothing_due_only_selects :
  forall env w now st,
    select_due_posts now (db st) = [] ->
    post_cron_check_posts env w now (Some (bearer env)) st =
    (inr (res_json JsonSuccess),
     {| db := db st; trace := (trace st ++ [Query SelectDuePosts])%list |}).
Proof.
  intros env w now st Hnone.
  rewrite cron_authorized, Hnone. reflexivity.
Qed.

Lemma cron_with_nothing_due_only_selects_witness :
  post_cron_check_posts Sample.env Sample.rejecting Sample.now
    (Some "Bearer s3cret") (Sample.start Scenario.quiet_store) =
  (inr (res_json JsonSuccess),
   {| db := Scenario.quiet_store; trace := [Query SelectDuePosts] |}).
Proof.
  apply (cron_with_nothing_due_only_selects
           Sample.env Sample.rejecting Sample.now
           (Sample.start Scenario.quiet_store)).
  reflexivity.
Defined.

(** ** How many calls a run makes, and in which order *)

Lemma count_calls_accepted w batch st c :
  hd_error (credentials (db st)) = Some c ->
  accepted w c ->
  count is_select_credentials (trace (after_loop w batch st)) =
  (count is_select_credentials (trace st) + List.length batch)%nat /\
  count is_login (trace (after_loop w batch st)) =
  (count is_login (trace st) + List.length batch)%nat /\
  count is_publish (trace (after_loop w batch st)) =
  (count is_publish (trace st) + List.length batch)%nat.
Proof.
  intros Hc Ha. revert st Hc.
  induction batch as [|p rest IH]; intros st Hc.
  - rewrite after_loop_nil. simpl. lia.
  - rewrite after_loop_cons.
    destruct (IH (after_iteration w p st)) as [IHs [IHl IHp]];
      [now rewrite after_iteration_credentials|].
    rewrite IHs, IHl, IHp, after_iteration_eq. simpl.
    destruct (attempt_accepted w p st c Hc Ha) as [o ->].
    rewrite !count_app. unfold count.
    destruct (verdict w p st); simpl; lia.
Qed.

(** X4.  With credentials that the network accepts, a run of the cron
    route reads the credentials table, logs in and creates a post once for
    each due post: the three counts equal the size of the batch. *)
Theorem cron_logs_in_once_per_due_post :
  forall env w now st c,
    hd_error (credentials (db st)) = Some c ->
    accepted w c ->
    let st' := snd (post_cron_check_posts env w now (Some (bearer env)) st) in
    let n := List.length (select_due_posts now (db st)) in
    count is_select_credentials (new_events st st') = n /\
    count is_login (new_events st st') = n /\
    count is_publish (new_events st st') = n.
Proof.
  intros env w now st c Hc Ha st' n. subst st' n.
  rewrite cron_authorized. simpl.
  destruct (count_calls_accepted w (select_due_posts now (db st))
              (selected st) c Hc Ha) as [Hs [Hl Hp]].
  rewrite !count_new_events by apply selected_extends.
  rewrite Hs, Hl, Hp, !count_selected by reflexivity.
  repeat split; lia.
Qed.

Lemma cron_logs_in_once_per_due_post_witness :
  count is_login
    (new_events (Sample.start Sample.store)
       (snd (post_cron_check_posts Sample.env Sample.flaky Sample.now
               (Some "Bearer s3cret") (Sample.start Sample.store))))
  = 2%nat.
Proof.
  apply (cron_logs_in_once_per_due_post
           Sample.env Sample.flaky Sample.now (Sample.start Sample.store)
           Sample.account eq_refl (fun _ => eq_refl)).
Defined.

Lemma publish_ids_app l1 l2 :
  publish_ids (l1 ++ l2) = (publish_ids l1 ++ publish_ids l2)%list.
Proof. unfold publish_ids. apply flat_map_app. Qed.

Lemma loop_publish_order w batch st c :
  hd_error (credentials (db st)) = Some c ->
  accepted w c ->
  exists delta,
    trace (after_loop w batch st) = (trace st ++ delta)%list /\
    publish_ids delta = map id batch.
Proof.
  intros Hc Ha. revert st Hc.
  induction batch as [|p rest IH]; intros st Hc.
  - exists []. rewrite after_loop_nil, app_nil_r. now split.
  - rewrite after_loop_cons.
    destruct (IH (after_iteration w p st)) as [d [Ht Hd]];
      [now rewrite after_iteration_credentials|].
    rewrite Ht, after_iteration_eq. simpl.
    destruct (attempt_accepted w p st c Hc Ha) as [o ->].
    eexists. split.
    + rewrite <- !app_assoc. reflexivity.
    + rewrite !publish_ids_app, Hd.
      destruct (verdict w p st); reflexivity.
Qed.

(** X5.  With credentials that the network accepts, the post creation
    calls of a run are made in the order in which the due posts stand in the
    table, one per post. *)
Theorem cron_publishes_in_table_order :
  forall env w now st c,
    hd_error (credentials (db st)) = Some c ->
    accepted w c ->
    let st' := snd (post_cron_check_posts env w now (Some (bearer env)) st) in
    publish_ids (new_events st st') = map id (select_due_posts now (db st)).
Proof.
  intros env w now st c Hc Ha st'. subst st'.
  rewrite cron_authorized. simpl.
  destruct (loop_publish_order w (select_due_posts now (db st))
              (selected st) c Hc Ha) as [d [Ht Hd]].
  assert (Hnew : trace (after_loop w (select_due_posts now (db st))
                          (selected st)) =
                 (trace st ++ Query SelectDuePosts :: d)%list).
  { rewrite Ht. simpl. now rewrite <- app_assoc. }
  rewrite (new_events_app _ _ _ Hnew). exact Hd.
Qed.

Lemma cron_publishes_in_table_order_witness :
  publish_ids
    (new_events (Sample.start Sample.store)
       (snd (post_cron_check_posts Sample.env Sample.flaky Sample.now
               (Some "Bearer s3cret") (Sample.start Sample.store))))
  = [1; 4].
Proof.
  apply (cron_publishes_in_table_order
           Sample.env Sample.flaky Sample.now (Sample.start Sample.store)
           Sample.account eq_refl (fun _ => eq_refl)).
Defined.

(** ** What a run sends to the network, and what it leaves in the store *)

Lemma backed_by_more creds p rest e :
  backed_by creds rest e -> backed_by creds (p :: rest) e.
Proof.
  destruct e as [q | i a b o | i t o]; simpl; auto.
  - intros [Hi Hc]. split; auto.
  - intros [r [Hr Hrest]]. exists r. auto.
Qed.

Lemma attempt_backed w creds p history :
  Forall (backed_by creds [p]) (attempt w creds p history).
Proof.
  unfold attempt. destruct creds as [|c cs]; simpl.
  - repeat constructor.
  - destruct (login_outcome w _ _ _); repeat constructor; simpl; eauto.
    all: exists p; auto.
Qed.

Lemma backed_by_first creds p rest e :
  backed_by creds [p] e -> backed_by creds (p :: rest) e.
Proof.
  destruct e as [q | i a b o | i t o]; simpl; auto.
  - intros [[Hi | []] Hc]. split; auto.
  - intros [r [[Hr | []] Hrest]]. exists r. auto.
Qed.

Lemma loop_backed w batch st :
  exists delta,
    trace (after_loop w batch st) = (trace st ++ delta)%list /\
    Forall (backed_by (credentials (db st)) batch) delta.
Proof.
  revert st. induction batch as [|p rest IH]; intro st.
  - exists []. rewrite after_loop_nil, app_nil_r. now split.
  - rewrite after_loop_cons.
    destruct (IH (after_iteration w p st)) as [d [Ht Hd]].
    rewrite after_iteration_credentials in Hd.
    rewrite Ht, after_iteration_eq. simpl.
    eexists. split.
    + rewrite <- !app_assoc. reflexivity.
    + apply Forall_app. split; [|apply Forall_app; split].
      * eapply Forall_impl; [|apply attempt_backed].
        intro e. apply backed_by_first.
      * repeat constructor.
      * eapply Forall_impl; [|exact Hd]. intro e. apply backed_by_more.
Qed.

(** X6.  Whatever the network answers, every login of a run presents the
    identifier and password of the first row of the credentials table, and
    every post creation sends the stored content of a post that was pending
    and due when the batch was selected; no other login or post creation is
    made. *)
Theorem cron_sends_only_stored_data :
  forall env w now authHeader st e,
    let st' := snd (post_cron_check_posts env w now authHeader st) in
    In e (new_events st st') ->
    match e with
    | Query _ => True
    | AgentLogin i a b _ =>
        exists c, hd_error (credentials (db st)) = Some c /\
                  a = identifier c /\ b = password c
    | AgentPost i t _ =>
        exists p, In p (posts (db st)) /\ due now p /\
                  id p = i /\ t = content p
    end.
Proof.
  intros env w now authHeader st e st' Hin. subst st'.
  destruct (cron_cases env w now authHeader st) as [E | [_ E]];
    rewrite E in Hin; simpl in Hin.
  - rewrite new_events_same in Hin. destruct Hin.
  - destruct (loop_backed w (select_due_posts now (db st)) (selected st))
      as [d [Ht Hd]].
    assert (Hnew : trace (after_loop w (select_due_posts now (db st))
                            (selected st)) =
                   (trace st ++ Query SelectDuePosts :: d)%list).
    { rewrite Ht. simpl. now rewrite <- app_assoc. }
    rewrite (new_events_app _ _ _ Hnew) in Hin.
    destruct Hin as [<- | Hin]; [exact I|].
    rewrite Forall_forall in Hd. specialize (Hd e Hin).
    destruct e as [q | i a b o | i t o]; simpl in Hd; auto.
    + tauto.
    + destruct Hd as [p [Hp [Hi Hc]]].
      apply select_due_posts_In in Hp. exists p. tauto.
Qed.

Lemma cron_sends_only_stored_data_witness :
  exists p, In p (posts Sample.store) /\ due Sample.now p /\
            id p = 4 /\ "world" = content p.
Proof.
  apply (cron_sends_only_stored_data
           Sample.env Sample.friendly Sample.now (Some "Bearer s3cret")
           (Sample.start Sample.store) (AgentPost 4 "world" None)).
  vm_compute. tauto.
Defined.

Lemma settle_fixed_part v q d :
  map fixed_part (posts (settle v q d)) = map fixed_part (posts d).
Proof.
  destruct v; simpl; rewrite map_map; apply map_ext; intro r;
    now destruct (id r =? q).
Qed.

Lemma after_loop_fixed_part w batch st :
  map fixed_part (posts (db (after_loop w batch st))) =
  map fixed_part (posts (db st)).
Proof.
  revert st. induction batch as [|p rest IH]; intro st; [reflexivity|].
  rewrite after_loop_cons, IH, after_iteration_eq. simpl.
  apply settle_fixed_part.
Qed.

Lemma after_loop_credentials_seq w batch st :
  credentials_id_seq (db (after_loop w batch st)) =
  credentials_id_seq (db st).
Proof.
  revert st. induction batch as [|p rest IH]; intro st; [reflexivity|].
  rewrite after_loop_cons, IH, after_iteration_eq. simpl.
  now destruct (verdict w p st).
Qed.

(** X7.  A run of the cron route, whatever its header and whatever the
    network answers, adds no post and removes none, and of each row it can
    change the status and the error only: the ids, contents, schedules,
    creation times, urls and images in the table afterwards are, up to the
    order of the rows, those before.  The credentials table and both
    sequences are as before. *)
Theorem cron_changes_status_and_error_only :
  forall env w now authHeader st,
    let st' := snd (post_cron_check_posts env w now authHeader st) in
    Permutation (map fixed_part (posts (db st')))
                (map fixed_part (posts (db st))) /\
    credentials (db st') = credentials (db st) /\
    posts_id_seq (db st') = posts_id_seq (db st) /\
    credentials_id_seq (db st') = credentials_id_seq (db st).
Proof.
  intros env w now authHeader st st'. subst st'.
  destruct (cron_cases env w now authHeader st) as [-> | [_ ->]]; simpl.
  - repeat split. apply Permutation_refl.
  - rewrite after_loop_fixed_part, after_loop_credentials, after_loop_seq,
      after_loop_credentials_seq.
    repeat split. apply Permutation_refl.
Qed.

(** X8.  When [CRON_SECRET] is not set, the header the route compares
    with is the text "Bearer undefined": a request carrying it is let
    through and the loop runs (every due post is written to once and
    settled), while a request without the header is still answered 401. *)
Theorem cron_without_secret_accepts_bearer_undefined :
  forall env w now st,
    CRON_SECRET env = None ->
    posts_pkey (db st) ->
    (let (res, st') :=
       post_cron_check_posts env w now (Some "Bearer undefined") st in
     res = inr {| status_code := 200; body := JsonSuccess |} /\
     forall p, In p (posts (db st)) -> due now p ->
       count (is_write_to (id p)) (new_events st st') = 1%nat /\
       exists v, lookup_post (id p) (db st') = Some (settled_row v p)) /\
    post_cron_check_posts env w now None st =
    (inr {| status_code := 401; body := JsonError "Unauthorized" |}, st).
Proof.
  intros env w now st Hsecret Hk.
  assert (Hb : bearer env = "Bearer undefined")
    by (unfold bearer; now rewrite Hsecret).
  split.
  - rewrite <- Hb.
    destruct (post_cron_check_posts env w now (Some (bearer env)) st)
      as [res st'] eqn:E.
    split.
    + rewrite cron_authorized in E. now inversion E.
    + intros p Hin Hdue.
      pose proof (cron_attempts_every_due_post env w now st p Hk Hin Hdue)
        as H.
      simpl in H. now rewrite E in H.
  - apply cron_unauthorized. discriminate.
Qed.

Lemma cron_without_secret_accepts_bearer_undefined_witness :
  fst (post_cron_check_posts Scenario.env_without_secret Sample.friendly
         Sample.now (Some "Bearer undefined") (Sample.start Sample.store)) =
  inr {| status_code := 200; body := JsonSuccess |}.
Proof.
  destruct (cron_without_secret_accepts_bearer_undefined
              Scenario.env_without_secret Sample.friendly Sample.now
              (Sample.start Sample.store) eq_refl sample_store_pkey)
    as [H _].
  destruct (post_cron_check_posts Scenario.env_without_secret
              Sample.friendly Sample.now (Some "Bearer undefined")
              (Sample.start Sample.store)) as [res st'].
  exact (proj1 H).
Defined.

(** ** Invariants of a server that takes one request at a time *)

Lemma app_credentials env w now req st :
  let st' := snd (app env w now req st) in
  match req with
  | POST_credentials c =>
      credentials (db st') =
      [{| cred_id := credentials_id_seq (db st);
          identifier := Types.identifier c;
          password := Types.password c |}]
  | DELETE_credentials => credentials (db st') = []
  | _ => credentials (db st') = credentials (db st)
  end.
Proof.
  destruct req; simpl; try reflexivity.
  destruct (cron_cases env w now authorization st) as [-> | [_ ->]];
    simpl; [reflexivity|].
  now rewrite after_loop_credentials.
Qed.

(** X9.  When the server takes one request at a time (each handled to
    its response before the next starts), in every store state it reaches
    from the empty tables the credentials table holds at most one row. *)
Theorem serial_store_has_at_most_one_credential :
  forall d, serially_reachable d -> (List.length (credentials d) <= 1)%nat.
Proof.
  induction 1 as [|env w now req d tr Hr IH].
  - simpl. lia.
  - pose proof (app_credentials env w now req {| db := d; trace := tr |})
      as H.
    cbv zeta in H.
    destruct req; try (rewrite H; simpl; exact IH || lia);
      rewrite H; simpl; lia.
Qed.

Lemma serial_store_has_at_most_one_credential_witness :
  (List.length (credentials Sample.published_store) <= 1)%nat.
Proof.
  apply (serial_store_has_at_most_one_credential
           Sample.published_store sample_published_store_reachable).
Defined.

Lemma settled_row_matches v r :
  status r = Pending -> error r = None ->
  error_matches_status (settled_row v r).
Proof.
  intros Hs He. destruct v; unfold error_matches_status; simpl.
  - discriminate.
  - exact He.
Qed.

Lemma pending_has_no_error r :
  error_matches_status r -> status r = Pending -> error r = None.
Proof. unfold error_matches_status. intros H E. now rewrite E in H. Qed.

Lemma after_loop_error_matches w now st :
  posts_pkey (db st) ->
  Forall error_matches_status (posts (db st)) ->
  Forall error_matches_status
    (posts (db (after_loop w (select_due_posts now (db st)) (selected st)))).
Proof.
  intros Hk Hall. set (batch := select_due_posts now (db st)).
  set (st' := after_loop w batch (selected st)).
  assert (Hk' : posts_pkey (db st')).
  { unfold posts_pkey, st'. now rewrite after_loop_ids. }
  rewrite Forall_forall in *. intros r' Hr'.
  pose proof (lookup_post_In (db st') r' Hk' Hr') as Hl'.
  assert (Hid : In (id r') (map id (posts (db st)))).
  { replace (map id (posts (db st))) with (map id (posts (db st')))
      by (unfold st'; now rewrite after_loop_ids).
    now apply in_map. }
  apply in_map_iff in Hid. destruct Hid as [r [Eid Hr]].
  pose proof (lookup_post_In (db st) r Hk Hr) as Hl. rewrite Eid in Hl.
  destruct (in_dec Z.eq_dec (id r') (map id batch)) as [Hin | Hout].
  - apply in_map_iff in Hin. destruct Hin as [q [Eq Hq]].
    pose proof Hq as Hq'. apply select_due_posts_In in Hq'.
    destruct Hq' as [Hqd [Hpending _]].
    assert (q = r)
      by (apply (pkey_injective (db st) q r Hk Hqd Hr); congruence).
    subst q.
    destruct (after_loop_member w batch (selected st) r
                (select_due_posts_pkey now (db st) Hk) Hq)
      as [b [a [_ Hm]]].
    fold st' in Hm. simpl in Hm. rewrite Eid, Hl', Hl in Hm. simpl in Hm.
    injection Hm as ->.
    apply settled_row_matches; [exact Hpending|].
    apply pending_has_no_error; auto.
  - unfold st' in Hl'. rewrite after_loop_lookup_other in Hl' by exact Hout.
    simpl in Hl'. rewrite Hl in Hl'. injection Hl' as <-. auto.
Qed.

(** X10.  When the server takes one request at a time (each handled to
    its response before the next starts), in every store state it reaches
    from the empty tables a post carries an error text exactly when its
    status is failed: pending and published posts have none, failed posts
    have one. *)
Theorem serial_error_only_on_failed :
  forall d, serially_reachable d -> Forall error_matches_status (posts d).
Proof.
  induction 1 as [|env w now req d tr Hr IH].
  - constructor.
  - destruct (serially_reachable_key d Hr) as [Hk _].
    pose proof (app_posts env w now req {| db := d; trace := tr |}) as H.
    cbv zeta in H. change (db {| db := d; trace := tr |}) with d in H.
    assert (Hsame :
              posts (db (snd (app env w now req {| db := d; trace := tr |})))
              = posts d ->
              Forall error_matches_status
                (posts (db (snd (app env w now req
                                   {| db := d; trace := tr |}))))).
    { now intros ->. }
    destruct req; try (apply Hsame; tauto).
    + rewrite H. simpl. apply Forall_app. split; [exact IH|].
      repeat constructor.
    + rewrite H. simpl. rewrite Forall_forall in *. intros r Hin.
      apply filter_In in Hin. now apply IH.
    + destruct H as [E | E].
      * apply Hsame. now rewrite E.
      * rewrite E.
        apply (after_loop_error_matches w now {| db := d; trace := tr |});
          assumption.
Qed.

Lemma serial_error_only_on_failed_witness :
  Forall error_matches_status (posts Sample.published_store).
Proof.
  apply (serial_error_only_on_failed
           Sample.published_store sample_published_store_reachable).
Defined.

Lemma sample_draft_ordinary : ordinary_draft Sample.draft_with_link.
Proof.
  unfold ordinary_draft, plain_option, plain_text, four_digit_year,
    Ascii.zero.
  simpl. repeat split; try lia; intuition discriminate.
Qed.

(** X11.  On a server that takes one request at a time, in every store
    state it reaches from the empty tables and as long as the sequence is
    within the INTEGER range: a post created next from an ordinary draft
    (texts without NUL and of at most 1000 bytes, a schedule between the
    years 0001 and 9999) receives an id above the id of every post in the
    table, so it is the id of no other post, and the row is returned with
    the status pending and no error, whatever status or error the draft
    carried. *)
Theorem created_post_gets_a_fresh_id :
  forall d,
    serially_reachable d ->
    forall env w now draft tr,
      ordinary_draft draft ->
      int4 (posts_id_seq d) ->
      exists row,
        fst (app env w now (POST_posts draft) {| db := d; trace := tr |}) =
        inr (res_json (JsonPost row)) /\
        (forall r, In r (posts d) -> id r < id row) /\
        ~ In (id row) (map id (posts d)) /\
        status row = Pending /\ error row = None.
Proof.
  intros d Hd env w now draft tr _ _.
  destruct (serially_reachable_key d Hd) as [_ Ha].
  eexists. split; [reflexivity|]. simpl.
  unfold seq_ahead in Ha. rewrite Forall_forall in Ha.
  repeat split.
  - exact Ha.
  - intro Hin. apply in_map_iff in Hin. destruct Hin as [r [E Hr]].
    specialize (Ha r Hr). lia.
Qed.

Lemma created_post_gets_a_fresh_id_witness :
  exists row,
    fst (app Sample.env Sample.friendly 7000
           (POST_posts Sample.draft_with_link)
           (Sample.start Sample.published_store)) =
    inr (res_json (JsonPost row)) /\
    (forall r, In r (posts Sample.published_store) -> id r < id row) /\
    ~ In (id row) (map id (posts Sample.published_store)) /\
    status row = Pending /\ error row = None.
Proof.
  apply (created_post_gets_a_fresh_id
           Sample.published_store sample_published_store_reachable
           Sample.env Sample.friendly 7000 Sample.draft_with_link []
           sample_draft_ordinary).
  split; discriminate.
Defined.

(** ** The client against the server *)

Lemma getPendingPosts_online env w now st :
  RemoteDB.getPendingPosts (RemoteDB.online env w now) st =
  (inr (JsonPosts (select_due_posts now (db st))),
   {| db := db st; trace := (trace st ++ [Query SelectDuePosts])%list |}).
Proof. reflexivity. Qed.

Lemma createPost_online env w now draft st :
  RemoteDB.createPost (RemoteDB.online env w now) draft st =
  (inr (JsonPost
          (fst (insert_post now (Types.content draft)
                  (Types.scheduledFor draft) Pending (Types.image draft)
                  (db st)))),
   {| db := snd (insert_post now (Types.content draft)
                   (Types.scheduledFor draft) Pending (Types.image draft)
                   (db st));
      trace := (trace st ++ [Query InsertPost])%list |}).
Proof. reflexivity. Qed.

Lemma deletePost_online env w now post_id st :
  RemoteDB.deletePost (RemoteDB.online env w now) post_id st =
  (inr tt,
   {| db := delete_post post_id (db st);
      trace := (trace st ++ [Query (DeletePost post_id)])%list |}).
Proof. reflexivity. Qed.

(** X12.  [createPost] of an ordinary draft followed by
    [getPendingPosts], on a store whose sequence is within the INTEGER
    range: the pending list holds, whatever the order of its rows, the
    rows it would have held without the new post, and the new post when
    its schedule is not after the time of the listing, and nothing else. *)
Theorem created_post_is_pending_once_due :
  forall env1 w1 now1 env2 w2 now2 draft st,
    ordinary_draft draft ->
    int4 (posts_id_seq (db st)) ->
    let (created, st1) :=
      RemoteDB.createPost (RemoteDB.online env1 w1 now1) draft st in
    let (pending, st2) :=
      RemoteDB.getPendingPosts (RemoteDB.online env2 w2 now2) st1 in
    exists row rows,
      created = inr (JsonPost row) /\
      pending = inr (JsonPosts rows) /\
      Permutation rows
        (select_due_posts now2 (db st)
         ++ (if Types.scheduledFor draft <=? now2 then [row] else [])).
Proof.
  intros env1 w1 now1 env2 w2 now2 draft st _ _.
  rewrite createPost_online, getPendingPosts_online.
  eexists. eexists. split; [reflexivity|]. split; [reflexivity|].
  unfold select_due_posts. simpl. rewrite filter_app. simpl.
  unfold is_due at 2. simpl.
  destruct (Types.scheduledFor draft <=? now2); apply Permutation_refl.
Qed.

Lemma created_post_is_pending_once_due_witness :
  let (created, st1) :=
    RemoteDB.createPost
      (RemoteDB.online Sample.env Sample.friendly Sample.now)
      Sample.draft_with_link (Sample.start Sample.store) in
  let (pending, st2) :=
    RemoteDB.getPendingPosts
      (RemoteDB.online Sample.env Sample.friendly 2500) st1 in
  exists row rows,
    created = inr (JsonPost row) /\
    pending = inr (JsonPosts rows) /\
    Permutation rows
      ([Sample.hello; Sample.later; Sample.second] ++ [row]).
Proof.
  apply (created_post_is_pending_once_due
           Sample.env Sample.friendly Sample.now
           Sample.env Sample.friendly 2500
           Sample.draft_with_link (Sample.start Sample.store)
           sample_draft_ordinary).
  split; discriminate.
Defined.

Lemma filter_keeps_all {A} (f : A -> bool) (l : list A) :
  Forall (fun x => f x = true) l -> filter f l = l.
Proof.
  induction 1 as [|x l Hx Hl IH]; simpl; [reflexivity|].
  now rewrite Hx, IH.
Qed.

(** X13.  On a store whose sequence is ahead of its ids and within the
    INTEGER range, [createPost] of an ordinary draft followed by
    [deletePost] of the returned id leaves in the posts table exactly the
    rows it held before; the sequence has moved on, so the id is not handed
    out again. *)
Theorem deleting_the_created_post_restores_the_table :
  forall env1 w1 now1 env2 w2 now2 draft st,
    ordinary_draft draft ->
    int4 (posts_id_seq (db st)) ->
    seq_ahead (db st) ->
    let (created, st1) :=
      RemoteDB.createPost (RemoteDB.online env1 w1 now1) draft st in
    exists row,
      created = inr (JsonPost row) /\
      let (deleted, st2) :=
        RemoteDB.deletePost (RemoteDB.online env2 w2 now2) (id row) st1 in
      deleted = inr tt /\
      posts (db st2) = posts (db st) /\
      posts_id_seq (db st2) = posts_id_seq (db st) + 1.
Proof.
  intros env1 w1 now1 env2 w2 now2 draft st _ _ Ha.
  rewrite createPost_online. eexists. split; [reflexivity|].
  rewrite deletePost_online. simpl. repeat split.
  rewrite filter_app. simpl. rewrite Z.eqb_refl. simpl.
  rewrite app_nil_r. apply filter_keeps_all.
  unfold seq_ahead in Ha. eapply Forall_impl; [|exact Ha].
  simpl. intros r Hr. apply negb_true_iff, Z.eqb_neq. lia.
Qed.

Lemma sample_store_seq_ahead : seq_ahead Sample.store.
Proof. unfold seq_ahead. simpl. repeat constructor. Defined.

Lemma deleting_the_created_post_restores_the_table_witness :
  let (created, st1) :=
    RemoteDB.createPost
      (RemoteDB.online Sample.env Sample.friendly Sample.now)
      Sample.draft_with_link (Sample.start Sample.store) in
  exists row,
    created = inr (JsonPost row) /\
    let (deleted, st2) :=
      RemoteDB.deletePost
        (RemoteDB.online Sample.env Sample.friendly 1500) (id row) st1 in
    deleted = inr tt /\
    posts (db st2) = posts Sample.store /\
    posts_id_seq (db st2) = 6.
Proof.
  apply (deleting_the_created_post_restores_the_table
           Sample.env Sample.friendly Sample.now
           Sample.env Sample.friendly 1500
           Sample.draft_with_link (Sample.start Sample.store)
           sample_draft_ordinary).
  - split; discriminate.
  - exact sample_store_seq_ahead.
Defined.

Lemma lookup_delete_same post_id d :
  lookup_post post_id (delete_post post_id d) = None.
Proof.
  unfold lookup_post, delete_post. simpl.
  induction (posts d) as [|a l IH]; simpl; [reflexivity|].
  destruct (id a =? post_id) eqn:E; simpl; [exact IH|].
  now rewrite E.
Qed.

Lemma lookup_delete_other post_id j d :
  j <> post_id ->
  lookup_post j (delete_post post_id d) = lookup_post j d.
Proof.
  intro Hne. unfold lookup_post, delete_post. simpl.
  induction (posts d) as [|a l IH]; simpl; [reflexivity|].
  destruct (id a =? post_id) eqn:E; simpl.
  - apply Z.eqb_eq in E.
    destruct (id a =? j) eqn:E'; [apply Z.eqb_eq in E'; lia | exact IH].
  - destruct (id a =? j); [reflexivity | exact IH].
Qed.

Lemma delete_missing post_id d :
  lookup_post post_id d = None -> posts (delete_post post_id d) = posts d.
Proof.
  unfold lookup_post, delete_post. simpl.
  induction (posts d) as [|a l IH]; simpl; [reflexivity|].
  destruct (id a =? post_id); simpl; [discriminate|].
  intro H. now rewrite IH.
Qed.

(** X14.  [deletePost] against the server, on any store and for any id
    within the range of the INTEGER id column: the call returns normally,
    no post with that id remains, every post with another id is found as
    before, and when the table had no post with that id it is left as it
    was (the call still succeeds). *)
Theorem deletePost_removes_that_post_only :
  forall env w now post_id st,
    int4 post_id ->
    let (deleted, st1) :=
      RemoteDB.deletePost (RemoteDB.online env w now) post_id st in
    deleted = inr tt /\
    lookup_post post_id (db st1) = None /\
    (forall j, j <> post_id ->
               lookup_post j (db st1) = lookup_post j (db st)) /\
    (lookup_post post_id (db st) = None -> posts (db st1) = posts (db st)).
Proof.
  intros env w now post_id st _. rewrite deletePost_online. simpl.
  repeat split.
  - apply lookup_delete_same.
  - intros j Hj. now apply lookup_delete_other.
  - apply delete_missing.
Qed.





(** X17.  The pending list and the cron batch agree: on a store with the
    posts primary key, a post is listed by [getPendingPosts] at some time
    exactly when a cron run at that time sends a write to it. *)
Theorem pending_list_is_the_cron_batch :
  forall env w now st p,
    posts_pkey (db st) ->
    In p (posts (db st)) ->
    let pending :=
      listed (fst (RemoteDB.getPendingPosts (RemoteDB.online env w now) st)) in
    let st' := snd (post_cron_check_posts env w now (Some (bearer env)) st) in
    In p pending <-> count (is_write_to (id p)) (new_events st st') = 1%nat.
Proof.
  intros env w now st p Hk Hin pending st'. subst pending st'.
  rewrite getPendingPosts_online. simpl.
  rewrite select_due_posts_In.
  destruct (is_due now p) eqn:E.
  - apply is_due_true in E.
    destruct (cron_attempts_every_due_post env w now st p Hk Hin E)
      as [Hw _].
    tauto.
  - apply is_due_false in E.
    destruct (cron_frame env w now (Some (bearer env)) st p Hk Hin E)
      as [_ [Hw _]].
    split.
    + intros [_ Hdue]. exfalso. eapply due_not_not_due; eauto.
    + intro H1. rewrite Hw in H1. discriminate.
Qed.

Lemma pending_list_is_the_cron_batch_witness :
  In Sample.second
     (listed (fst (RemoteDB.getPendingPosts
                     (RemoteDB.online Sample.env Sample.rejecting Sample.now)
                     (Sample.start Sample.store))))
  <->
  count (is_write_to 4)
    (new_events (Sample.start Sample.store)
       (snd (post_cron_check_posts Sample.env Sample.rejecting Sample.now
               (Some "Bearer s3cret") (Sample.start Sample.store))))
  = 1%nat.
Proof.
  apply (pending_list_is_the_cron_batch
           Sample.env Sample.rejecting Sample.now
           (Sample.start Sample.store) Sample.second sample_store_pkey).
  simpl. auto.
Defined.

Lemma deletePost_removes_that_post_only_witness :
  let (deleted, st1) :=
    RemoteDB.deletePost
      (RemoteDB.online Sample.env Sample.friendly Sample.now) 3
      (Sample.start Sample.store) in
  lookup_post 3 (db st1) = None /\
  lookup_post 1 (db st1) = lookup_post 1 Sample.store.
Proof.
  assert (Hid : int4 3) by (split; discriminate).
  pose proof (deletePost_removes_that_post_only
                Sample.env Sample.friendly Sample.now 3
                (Sample.start Sample.store) Hid) as H.
  destruct (RemoteDB.deletePost
              (RemoteDB.online Sample.env Sample.friendly Sample.now) 3
              (Sample.start Sample.store)) as [deleted st1].
  destruct H as [_ [Hgone [Hother _]]].
  split; [exact Hgone|]. apply Hother. discriminate.
Defined.

(** ** The outcome of each post creation is the record of its post *)

Lemma verdict_accepted w p st c :
  hd_error (credentials (db st)) = Some c ->
  accepted w c ->
  exists o,
    verdict w p st = o /\
    attempt w (credentials (db st)) p (trace st) =
    [Query SelectCredentials;
     AgentLogin (id p) (identifier c) (password c) None;
     AgentPost (id p) (content p) o].
Proof.
  intros Hc Ha. run_handler.
  destruct (credentials (db st)) as [|c' cs]; [discriminate|].
  simpl in Hc. injection Hc as ->. simpl.
  rewrite !Ha. simpl.
  destruct (post_outcome w _ _) as [e|]; simpl; eauto.
Qed.

(** X18.  With credentials that the network accepts, a run of the cron
    route makes, for every due post, a post creation call with that post's
    content, and the record it leaves is the record of that call's outcome:
    published when the call resolved, failed with the message of the error
    when it rejected. *)
Theorem cron_records_the_outcome_of_each_publish :
  forall env w now st c p,
    posts_pkey (db st) ->
    hd_error (credentials (db st)) = Some c ->
    accepted w c ->
    In p (posts (db st)) ->
    due now p ->
    let st' := snd (post_cron_check_posts env w now (Some (bearer env)) st) in
    exists o,
      In (AgentPost (id p) (content p) o) (new_events st st') /\
      lookup_post (id p) (db st') =
      Some (match o with
            | None => set_status Published p
            | Some e => set_status_error Failed (errorMessage e) p
            end).
Proof.
  intros env w now st c p Hk Hc Ha Hin Hdue st'. subst st'.
  rewrite cron_authorized. simpl.
  set (batch := select_due_posts now (db st)).
  pose proof (select_due_posts_pkey now (db st) Hk) as Hnd.
  assert (Hb : In p batch) by now apply select_due_posts_In.
  destruct (in_split _ _ Hb) as [before [after E]].
  fold batch in Hnd. rewrite E in *.
  destruct (verdict_accepted w p (after_loop w before (selected st)) c)
    as [o [Hv Hat]]; [now rewrite after_loop_credentials | exact Ha |].
  exists o. split.
  - destruct (member_events w before p after (selected st)) as [d1 [d2 Ht]].
    rewrite after_loop_credentials in Hat. rewrite Hat in Ht.
    assert (Hnew : trace (after_loop w (before ++ p :: after) (selected st))
                   = (trace st
                      ++ (Query SelectDuePosts :: d1)
                      ++ [Query SelectCredentials;
                          AgentLogin (id p) (identifier c) (password c) None;
                          AgentPost (id p) (content p) o]
                      ++ d2)%list).
    { rewrite Ht. simpl. now rewrite <- app_assoc. }
    rewrite (new_events_app _ _ _ Hnew).
    apply in_or_app. right. apply in_or_app. left. simpl. auto.
  - rewrite after_loop_lookup_member by exact Hnd.
    rewrite Hv. simpl. rewrite (lookup_post_In (db st) p Hk Hin).
    reflexivity.
Qed.

Lemma cron_records_the_outcome_of_each_publish_witness :
  exists o,
    In (AgentPost 1 "hello" o)
       (new_events (Sample.start Sample.store)
          (snd (post_cron_check_posts Sample.env Sample.flaky Sample.now
                  (Some "Bearer s3cret") (Sample.start Sample.store)))) /\
    lookup_post 1
      (db (snd (post_cron_check_posts Sample.env Sample.flaky Sample.now
                  (Some "Bearer s3cret") (Sample.start Sample.store)))) =
    Some (match o with
          | None => set_status Published Sample.hello
          | Some e => set_status_error Failed (errorMessage e) Sample.hello
          end).
Proof.
  apply (cron_records_the_outcome_of_each_publish
           Sample.env Sample.flaky Sample.now (Sample.start Sample.store)
           Sample.account Sample.hello sample_store_pkey eq_refl
           (fun _ => eq_refl)).
  - simpl. auto.
  - split; [reflexivity | discriminate].
Defined.
